(** * wasm.hh: owning vectors and tagged runtime values

    A shallow embedding of the ownership layer of [include/wasm.hh]:
    [vec_traits], [vec_traits<T*>] with its element [proxy], the owning
    vector [vec<T>] and the tagged runtime value [Val].

    The C++ free store is an explicit finite map from addresses to
    blocks.  A method that touches the free store is a function from
    memories to outcomes; besides normal completion an outcome records
    a failed [assert] and undefined behaviour (a read of an
    indeterminate value, an access through a null or dangling pointer,
    a second [delete], a read of an inactive union member). *)

From Stdlib Require Import ZArith NArith List Bool Lia.
From stdpp Require Import base gmap list.

Set Default Proof Using "Type".

(** ** Build configuration *)

(** [static_assert(sizeof(intptr_t) == sizeof(int32_t) ||
                   sizeof(intptr_t) == sizeof(int64_t))]. *)
Inductive word_size := W32 | W64.

(** [NDEBUG] decides whether [assert] checks its argument. *)
Record build := Build { NDEBUG : bool; word : word_size }.

Definition SIZE_MAX (cfg : build) : N :=
  match word cfg with
  | W32 => 2 ^ 32 - 1
  | W64 => 2 ^ 64 - 1
  end%N.

Definition float32_t := N.   (* a binary32 bit pattern *)
Definition float64_t := N.   (* a binary64 bit pattern *)

(** ** Outcomes *)

Inductive outcome (A : Type) : Type :=
| Done (a : A)
| AssertFail
| Undefined.
Arguments Done {A} a.
Arguments AssertFail {A}.
Arguments Undefined {A}.

Definition obind {A B} (c : outcome A) (k : A -> outcome B) : outcome B :=
  match c with
  | Done a => k a
  | AssertFail => AssertFail
  | Undefined => Undefined
  end.

(** [assert(b)] *)
Definition assert (cfg : build) (b : bool) : outcome unit :=
  if NDEBUG cfg then Done tt else if b then Done tt else AssertFail.

(** ** The free store *)

Definition loc := positive.

(** A pointer value; [nullptr] is [None]. *)
Definition ptr := option loc.
Definition nullptr : ptr := None.

(** [if (p)] on a pointer. *)
Definition nonnull (p : ptr) : bool :=
  match p with Some _ => true | None => false end.

Section Store.
(** [O]: the state of one heap object (a [Ref], a [ValType], ...);
    [V]: the element type of the arrays in the store.  An array cell is
    [None] while its value is indeterminate. *)
Context {O V : Type}.

Inductive block :=
| Obj (o : O)
| Arr (cs : list (option V)).

(** [deleted] logs every [delete] of an object, most recent first;
    [oracle] tells for each coming allocation whether it succeeds. *)
Record mem := Mem {
  heap : gmap loc block;
  deleted : list loc;
  oracle : list bool
}.

Definition M (A : Type) : Type := mem -> outcome (A * mem).

Definition ret {A} (a : A) : M A := fun m => Done (a, m).

Definition bind {A B} (c : M A) (k : A -> M B) : M B :=
  fun m =>
    match c m with
    | Done (a, m') => k a m'
    | AssertFail => AssertFail
    | Undefined => Undefined
    end.

Definition lift {A} (c : outcome A) : M A :=
  fun m => obind c (fun a => Done (a, m)).

Definition undefined {A} : M A := fun _ => Undefined.

Definition set_heap (h : gmap loc block) (m : mem) : mem :=
  {| heap := h; deleted := deleted m; oracle := oracle m |}.

(** One allocation request: consumes the head of the oracle.  An
    exhausted oracle means that no memory is left. *)
Definition request (m : mem) : bool * mem :=
  match oracle m with
  | b :: rest => (b, {| heap := heap m; deleted := deleted m; oracle := rest |})
  | [] => (false, m)
  end.

(** [new(std::nothrow) T[size]] for [size != 0]; every cell starts as
    [init] ([None] where [T] is default-initialised to an indeterminate
    value).  [max] is [SIZE_MAX]: an array of that many elements does
    not fit the address space, so that request never succeeds. *)
Definition new_array (max size : N) (init : option V) : M ptr :=
  fun m =>
    let '(ok, m1) := request m in
    if ok && (size <? max)%N then
      let l := fresh (dom (heap m1)) in
      Done (Some l,
            set_heap (<[l := Arr (replicate (N.to_nat size) init)]> (heap m1)) m1)
    else Done (nullptr, m1).

(** The destructor [dtor] of the element type run on the cells [cs],
    first to last; it reads its cell, so an indeterminate one is
    undefined behaviour. *)
Fixpoint destroy_cells (dtor : V -> M unit) (cs : list (option V)) : M unit :=
  match cs with
  | [] => ret tt
  | Some v :: cs' => bind (dtor v) (fun _ => destroy_cells dtor cs')
  | None :: _ => undefined
  end.

(** [delete[]] as run by [std::unique_ptr<T[]>]: nothing on null;
    otherwise the destructor of every element, the last element first,
    and then the block is freed.  [dtor] is [None] for an element type
    without a destructor of its own (a pointer, a byte): its cells are
    not read. *)
Definition delete_array (dtor : option (V -> M unit)) (p : ptr) : M unit :=
  fun m =>
    match p with
    | None => Done (tt, m)
    | Some l =>
        match heap m !! l with
        | Some (Arr cs) =>
            match dtor with
            | None => Done (tt, set_heap (delete l (heap m)) m)
            | Some d =>
                bind (destroy_cells d (reverse cs))
                     (fun _ m' => Done (tt, set_heap (delete l (heap m')) m')) m
            end
        | _ => Undefined
        end
    end.

(** [data[i]] read as an rvalue. *)
Definition load (data : ptr) (i : nat) : M V :=
  fun m =>
    match data with
    | None => Undefined
    | Some a =>
        match heap m !! a with
        | Some (Arr cs) =>
            match cs !! i with
            | Some (Some v) => Done (v, m)
            | _ => Undefined
            end
        | _ => Undefined
        end
    end.

(** [data[i] = v] *)
Definition store (data : ptr) (i : nat) (v : V) : M unit :=
  fun m =>
    match data with
    | None => Undefined
    | Some a =>
        match heap m !! a with
        | Some (Arr cs) =>
            if decide (i < length cs)%nat
            then Done (tt, set_heap (<[a := Arr (<[i := Some v]> cs)]> (heap m)) m)
            else Undefined
        | _ => Undefined
        end
    end.

(** Modelled from the spec: [delete p] for a non-null [p] runs the
    object's destructor and [operator delete], which the header declares
    and the engine defines; in the spec's words the object is deleted: it
    leaves the store.  Deleting what is not a live object is undefined. *)
Definition delete_obj (l : loc) : M unit :=
  fun m =>
    match heap m !! l with
    | Some (Obj _) =>
        Done (tt, {| heap := delete l (heap m);
                     deleted := l :: deleted m;
                     oracle := oracle m |})
    | _ => Undefined
    end.

(** Modelled from the spec: the polymorphic [copy()] of a heap object
    ([Ref::copy], [ValType::copy], ...) is declared in the header and
    defined by the engine.  It yields a new, independent object equal in
    value to the original, or the absent handle on resource exhaustion. *)
Definition obj_copy (l : loc) : M ptr :=
  fun m =>
    match heap m !! l with
    | Some (Obj o) =>
        let '(ok, m1) := request m in
        if ok then
          let l' := fresh (dom (heap m1)) in
          Done (Some l', set_heap (<[l' := Obj o]> (heap m1)) m1)
        else Done (nullptr, m1)
    | _ => Undefined
    end.

(** [for (size_t i = 0; i < size; ++i) body], started at [i] with
    [k] iterations to go; [s] is what the body updates outside the
    free store. *)
Fixpoint for_from {St} (k i : nat) (body : nat -> St -> M St) (s : St) : M St :=
  match k with
  | 0%nat => ret s
  | S k' => bind (body i s) (for_from k' (S i) body)
  end.

Definition for_each {St} (size : N) (body : nat -> St -> M St) (s : St) : M St :=
  for_from (N.to_nat size) 0 body s.

(** How often [l] was deleted. *)
Definition times_deleted (l : loc) (m : mem) : nat :=
  length (filter (fun x => x = l) (deleted m)).

Definition live_obj (l : loc) (m : mem) : Prop :=
  exists o, heap m !! l = Some (Obj o).
End Store.

Arguments block : clear implicits.
Arguments mem : clear implicits.
Arguments M : clear implicits.

Declare Scope mem_scope.
Delimit Scope mem_scope with mem.
Notation "x <- c ;; k" := (bind c (fun x => k))
  (at level 100, c at next level, right associativity) : mem_scope.
Notation "c ;; k" := (bind c (fun _ => k))
  (at level 100, right associativity) : mem_scope.
Open Scope mem_scope.

(** ** Values: [class Val] *)

Inductive ValKind := I32 | I64 | F32 | F64 | ANYREF | FUNCREF.

(** The enumerators count from zero in declaration order. *)
Definition ValKind_ord (k : ValKind) : N :=
  match k with
  | I32 => 0 | I64 => 1 | F32 => 2 | F64 => 3 | ANYREF => 4 | FUNCREF => 5
  end%N.

Definition ValKind_eqb (a b : ValKind) : bool :=
  (ValKind_ord a =? ValKind_ord b)%N.

Definition is_num (k : ValKind) : bool := (ValKind_ord k <? ValKind_ord ANYREF)%N.
Definition is_ref (k : ValKind) : bool := (ValKind_ord ANYREF <=? ValKind_ord k)%N.

(** [union impl]: the constructor is the active member. *)
Inductive impl :=
| impl_i32 (i : Z)
| impl_i64 (i : Z)
| impl_f32 (z : float32_t)
| impl_f64 (z : float64_t)
| impl_ref (r : ptr).

(** Reading a member: defined only for the active one. *)
Definition get_i32 (u : impl) : outcome Z :=
  match u with impl_i32 i => Done i | _ => Undefined end.
Definition get_i64 (u : impl) : outcome Z :=
  match u with impl_i64 i => Done i | _ => Undefined end.
Definition get_f32 (u : impl) : outcome float32_t :=
  match u with impl_f32 z => Done z | _ => Undefined end.
Definition get_f64 (u : impl) : outcome float64_t :=
  match u with impl_f64 z => Done z | _ => Undefined end.
Definition get_ref (u : impl) : outcome ptr :=
  match u with impl_ref r => Done r | _ => Undefined end.

Record Val := MkVal { kind_ : ValKind; impl_ : impl }.

(** The tag a payload belongs to: [ref] serves both reference kinds. *)
Definition holds (k : ValKind) (u : impl) : bool :=
  match u with
  | impl_i32 _ => ValKind_eqb k I32
  | impl_i64 _ => ValKind_eqb k I64
  | impl_f32 _ => ValKind_eqb k F32
  | impl_f64 _ => ValKind_eqb k F64
  | impl_ref _ => is_ref k
  end.

(** The class invariant: the active member is the one [kind_] names. *)
Definition Val_wf (v : Val) : bool := holds (kind_ v) (impl_ v).

Module Val.
Section Methods.
Context {O V : Type}.
Variable cfg : build.
#[local] Abbreviation M := (M O V).

(** [Val() : kind_(ANYREF) { impl_.ref = nullptr; }] *)
Definition make : Val := MkVal ANYREF (impl_ref nullptr).
Definition of_i32 (i : Z) : Val := MkVal I32 (impl_i32 i).
Definition of_i64 (i : Z) : Val := MkVal I64 (impl_i64 i).
Definition of_f32 (z : float32_t) : Val := MkVal F32 (impl_f32 z).
Definition of_f64 (z : float64_t) : Val := MkVal F64 (impl_f64 z).
(** [Val(own<Ref*>&& r) : kind_(ANYREF) { impl_.ref = r.release(); }] *)
Definition of_ref (r : ptr) : Val := MkVal ANYREF (impl_ref r).

(** What a move leaves in [that]. *)
Definition moved_from (that : Val) : Val :=
  if is_ref (kind_ that) then MkVal (kind_ that) (impl_ref nullptr) else that.

(** [Val(Val&& that)]: the new value and the source afterwards. *)
Definition move (that : Val) : Val * Val :=
  (MkVal (kind_ that) (impl_ that), moved_from that).

(** [void reset()] *)
Definition reset (v : Val) : M Val :=
  if is_ref (kind_ v) then
    r <- lift (get_ref (impl_ v)) ;;
    match r with
    | Some l => delete_obj l ;; ret (MkVal (kind_ v) (impl_ref nullptr))
    | None => ret v
    end
  else ret v.

(** [~Val() { reset(); }] *)
Definition destroy (v : Val) : M unit := reset v ;; ret tt.

(** [void reset(Val& that)]: [*this] and [that] afterwards. *)
Definition reset_from (this that : Val) : M (Val * Val) :=
  reset this ;;
  ret (MkVal (kind_ that) (impl_ that), moved_from that).

(** [operator=(Val&& that)] *)
Definition assign (this that : Val) : M (Val * Val) := reset_from this that.

Definition kind (v : Val) : ValKind := kind_ v.

Definition i32 (v : Val) : outcome Z :=
  obind (assert cfg (ValKind_eqb (kind_ v) I32)) (fun _ => get_i32 (impl_ v)).
Definition i64 (v : Val) : outcome Z :=
  obind (assert cfg (ValKind_eqb (kind_ v) I64)) (fun _ => get_i64 (impl_ v)).
Definition f32 (v : Val) : outcome float32_t :=
  obind (assert cfg (ValKind_eqb (kind_ v) F32)) (fun _ => get_f32 (impl_ v)).
Definition f64 (v : Val) : outcome float64_t :=
  obind (assert cfg (ValKind_eqb (kind_ v) F64)) (fun _ => get_f64 (impl_ v)).
Definition ref (v : Val) : outcome ptr :=
  obind (assert cfg (is_ref (kind_ v))) (fun _ => get_ref (impl_ v)).

(** [release_ref]: the local [ref] is read from [impl_.ref], set to
    null and wrapped; [impl_] is not written.  Returns the handle and
    [*this] afterwards. *)
Definition release_ref (v : Val) : outcome (ptr * Val) :=
  obind (assert cfg (is_ref (kind_ v))) (fun _ =>
  obind (get_ref (impl_ v)) (fun ref =>
  let ref := nullptr in
  Done (ref, v))).

(** [copy() const] *)
Definition copy (v : Val) : M Val :=
  if is_ref (kind_ v) then
    r <- lift (get_ref (impl_ v)) ;;
    match r with
    | Some l => r' <- obj_copy l ;; ret (MkVal (kind_ v) (impl_ref r'))
    | None => ret (MkVal (kind_ v) (impl_ v))
    end
  else ret (MkVal (kind_ v) (impl_ v)).
End Methods.
End Val.

(** ** Vectors: [vec_traits<T>], [vec_traits<T*>], [vec<T>] *)

(** The element policy.  [V] represents both [T] and [own<T>]: for a
    pointer kind both are the pointer value.  [default_init] is what
    [new T[n]] leaves in a cell, and [elem_destroy] is the destructor
    [~T] that [delete[]] runs on every cell, [None] for a [T] that has
    none. *)
Class vec_traits (O V : Type) := VecTraits {
  default_init : option V;
  elem_destroy : option (V -> M O V unit);
  construct : N -> ptr -> M O V unit;
  destruct : N -> ptr -> M O V unit;
  move : N -> ptr -> list V -> M O V (list V);
  copy : N -> ptr -> ptr -> M O V unit
}.

Section PlainTraits.
Context {O V : Type}.
(** [T::reset(T& that)] of the element type: [*this] and [that]
    afterwards. *)
Variable elem_reset : V -> V -> M O V (V * V).
Variable dflt : option V.

(** [data[i].reset(init[i])] *)
Definition plain_move_at (data : ptr) (i : nat) (init : list V) : M O V (list V) :=
  match init !! i with
  | Some that =>
      this <- load data i ;;
      r <- elem_reset this that ;;
      store data i (fst r) ;;
      ret (<[i := snd r]> init)
  | None => undefined
  end.

(** [data[i] = init[i]] *)
Definition plain_copy_at (data init : ptr) (i : nat) (_ : unit) : M O V unit :=
  v <- load init i ;;
  store data i v.

(** [vec_traits<T>] for a [T] without a destructor of its own. *)
Definition plain_traits : vec_traits O V := {|
  default_init := dflt;
  elem_destroy := None;
  construct := fun _ _ => ret tt;
  destruct := fun _ _ => ret tt;
  move := fun size data init => for_each size (plain_move_at data) init;
  copy := fun size data init => for_each size (plain_copy_at data init) tt
|}.
End PlainTraits.

Section PtrTraits.
Context {O : Type}.
#[local] Abbreviation M := (M O ptr).

(** [data[i] = nullptr] *)
Definition ptr_construct_at (data : ptr) (i : nat) (_ : unit) : M unit :=
  store data i nullptr.

(** [if (data[i]) delete data[i]] *)
Definition ptr_destruct_at (data : ptr) (i : nat) (_ : unit) : M unit :=
  p <- load data i ;;
  match p with
  | Some l => delete_obj l
  | None => ret tt
  end.

(** [data[i] = init[i].release()] *)
Definition ptr_move_at (data : ptr) (i : nat) (init : list ptr) : M (list ptr) :=
  match init !! i with
  | Some p => store data i p ;; ret (<[i := nullptr]> init)
  | None => undefined
  end.

(** [if (init[i]) data[i] = init[i]->copy().release()] *)
Definition ptr_copy_at (data init : ptr) (i : nat) (_ : unit) : M unit :=
  p <- load init i ;;
  match p with
  | Some l => q <- obj_copy l ;; store data i q
  | None => ret tt
  end.

(** [new T*[n]] leaves the pointers indeterminate. *)
Definition ptr_traits : vec_traits O ptr := {|
  default_init := None;
  elem_destroy := None;
  construct := fun size data => for_each size (ptr_construct_at data) tt;
  destruct := fun size data => for_each size (ptr_destruct_at data) tt;
  move := fun size data init => for_each size (ptr_move_at data) init;
  copy := fun size data init => for_each size (ptr_copy_at data init) tt
|}.

(** The specialisation is the one chosen for a pointer element type. *)
#[global] Existing Instance ptr_traits.

(** [vec_traits<T*>::proxy]: the reference [elem_] to slot [i] of the
    block at [data]. *)
Record proxy := Proxy { elem_data : ptr; elem_index : nat }.

(** [operator T*()], [get()], [operator->()] *)
Definition proxy_get (p : proxy) : M ptr := load (elem_data p) (elem_index p).

(** [void reset(own<T*>&& val)] *)
Definition proxy_reset (p : proxy) (val : ptr) : M unit :=
  elem <- load (elem_data p) (elem_index p) ;;
  match elem with
  | Some l => delete_obj l
  | None => ret tt
  end ;;
  store (elem_data p) (elem_index p) val.

(** [operator=(own<T*>&& elem)] *)
Definition proxy_assign (p : proxy) (elem : ptr) : M unit := proxy_reset p elem.

(** [auto release() -> T*] *)
Definition proxy_release (p : proxy) : M ptr :=
  elem <- load (elem_data p) (elem_index p) ;;
  store (elem_data p) (elem_index p) nullptr ;;
  ret elem.

(** [auto move() -> own<T*> { return make_own(release()); }] *)
Definition proxy_move (p : proxy) : M ptr := proxy_release p.
End PtrTraits.

Record vec := MkVec { size_ : N; data_ : ptr }.

Module Vec.
Section Methods.
Context {O V : Type} {T : vec_traits O V}.
Variable cfg : build.
#[local] Abbreviation M := (M O V).

Definition invalid_size : N := SIZE_MAX cfg.

(** [vec(size_t size, T* data)] *)
Definition init (size : N) (data : ptr) : outcome vec :=
  obind (assert cfg (eqb (negb (size =? 0)%N) (nonnull data)
                     || (size =? invalid_size)%N))
        (fun _ => Done (MkVec size data)).

(** [vec(size_t size)] *)
Definition alloc (size : N) : M vec :=
  data <- (if (size =? 0)%N then ret nullptr
           else new_array (SIZE_MAX cfg) size default_init) ;;
  lift (init size data).

(** [vec(vec<U>&& that)]: the new vector and [that] afterwards. *)
Definition move_from (that : vec) : outcome (vec * vec) :=
  obind (init (size_ that) (data_ that))
        (fun v => Done (v, MkVec (size_ that) nullptr)).

(** [~vec()]: [vec_traits<T>::destruct], then the member [data_]. *)
Definition destroy (v : vec) : M unit :=
  (if nonnull (data_ v) then destruct (size_ v) (data_ v) else ret tt) ;;
  delete_array elem_destroy (data_ v).

(** [operator bool()] *)
Definition valid (v : vec) : bool := negb (size_ v =? invalid_size)%N.

Definition size (v : vec) : N := size_ v.
Definition get (v : vec) : ptr := data_ v.

(** [release()]: the block and [*this] afterwards. *)
Definition release (v : vec) : ptr * vec := (data_ v, MkVec (size_ v) nullptr).

(** [reset(vec& that)]: [*this] and [that] afterwards, for two distinct
    vectors. *)
Definition reset (this that : vec) : M (vec * vec) :=
  delete_array elem_destroy (data_ this) ;;
  ret (MkVec (size_ that) (data_ that), MkVec (size_ that) nullptr).

(** [operator=(vec&& that)] *)
Definition assign (this that : vec) : M (vec * vec) := reset this that.

(** [copy() const] *)
Definition copy (v : vec) : M vec :=
  w <- alloc (size_ v) ;;
  (if valid w then copy (size_ v) (data_ w) (data_ v) else ret tt) ;;
  ret w.

Definition make_uninitialized (size : N) : M vec :=
  v <- alloc size ;;
  (if valid v then construct size (data_ v) else ret tt) ;;
  ret v.

(** [make(size_t size, own<T> init[])]: the vector and [init]
    afterwards. *)
Definition make (size : N) (init : list V) : M (vec * list V) :=
  v <- alloc size ;;
  init' <- (if valid v then move size (data_ v) init else ret init) ;;
  ret (v, init').

(** [make(Ts&&... args)] *)
Definition make_of (args : list V) : M vec :=
  r <- make (N.of_nat (length args)) args ;;
  ret (fst r).

Definition adopt (size : N) (data : ptr) : outcome vec := init size data.

Definition invalid : outcome vec := init invalid_size nullptr.
End Methods.

(** [operator[]] of a pointer-kind vector. *)
Definition at_ (v : vec) (i : N) : proxy := Proxy (data_ v) (N.to_nat i).
End Vec.

(** ** The vector invariant and the vectors a program can hold *)

(** The data model's invariant: in the sentinel state [data_] is empty;
    otherwise [size_ == 0] iff [data_] is empty. *)
Definition vec_inv (cfg : build) (v : vec) : bool :=
  if (size_ v =? SIZE_MAX cfg)%N then negb (nonnull (data_ v))
  else eqb (size_ v =? 0)%N (negb (nonnull (data_ v))).

(** The next allocation request will be granted. *)
Definition granted {O V} (m : mem O V) : Prop := fst (request m) = true.

Section Reach.
Context {O V : Type} {T : vec_traits O V}.
Variable cfg : build.

(** The states of the vectors held by a program that uses the public
    operations: what a factory or [invalid()] returns, and both
    operands of a move construction, a move assignment or a [reset]
    afterwards.  Sizes are [size_t] values. *)
Inductive reachable : vec -> Prop :=
| reach_make_uninitialized n m v m' :
    (n <= SIZE_MAX cfg)%N ->
    Vec.make_uninitialized cfg n m = Done (v, m') -> reachable v
| reach_make n init m v init' m' :
    (n <= SIZE_MAX cfg)%N ->
    Vec.make cfg n init m = Done ((v, init'), m') -> reachable v
| reach_make_of args m v m' :
    (N.of_nat (length args) <= SIZE_MAX cfg)%N ->
    Vec.make_of cfg args m = Done (v, m') -> reachable v
| reach_adopt n data v :
    (n <= SIZE_MAX cfg)%N ->
    Vec.adopt cfg n data = Done v -> reachable v
| reach_invalid v :
    Vec.invalid cfg = Done v -> reachable v
| reach_move_dst that v that' :
    reachable that ->
    Vec.move_from cfg that = Done (v, that') -> reachable v
| reach_move_src that v that' :
    reachable that ->
    Vec.move_from cfg that = Done (v, that') -> reachable that'
| reach_assign_dst this that (m : mem O V) this' that' m' :
    reachable this -> reachable that ->
    Vec.assign this that m = Done ((this', that'), m') -> reachable this'
| reach_assign_src this that (m : mem O V) this' that' m' :
    reachable this -> reachable that ->
    Vec.assign this that m = Done ((this', that'), m') -> reachable that'
| reach_reset_dst this that (m : mem O V) this' that' m' :
    reachable this -> reachable that ->
    Vec.reset this that m = Done ((this', that'), m') -> reachable this'
| reach_reset_src this that (m : mem O V) this' that' m' :
    reachable this -> reachable that ->
    Vec.reset this that m = Done ((this', that'), m') -> reachable that'.

(** The vectors that are results: returned by [make_uninitialized] or
    [make] when the allocation is granted, by [adopt] for a size below
    the sentinel with a block that is null exactly when the size is 0,
    by [invalid()], or the destination of a move from such a vector. *)
Inductive produced : vec -> Prop :=
| prod_make_uninitialized n m v m' :
    (n <= SIZE_MAX cfg)%N -> n = 0%N \/ granted m ->
    Vec.make_uninitialized cfg n m = Done (v, m') -> produced v
| prod_make n init m v init' m' :
    (n <= SIZE_MAX cfg)%N -> n = 0%N \/ granted m ->
    Vec.make cfg n init m = Done ((v, init'), m') -> produced v
| prod_make_of args m v m' :
    (N.of_nat (length args) <= SIZE_MAX cfg)%N -> args = [] \/ granted m ->
    Vec.make_of cfg args m = Done (v, m') -> produced v
| prod_adopt n data v :
    (n < SIZE_MAX cfg)%N -> (n = 0%N <-> data = nullptr) ->
    Vec.adopt cfg n data = Done v -> produced v
| prod_invalid v :
    Vec.invalid cfg = Done v -> produced v
| prod_move that v that' :
    produced that ->
    Vec.move_from cfg that = Done (v, that') -> produced v
| prod_assign this that (m : mem O V) this' that' m' :
    produced that ->
    Vec.assign this that m = Done ((this', that'), m') -> produced this'
| prod_reset this that (m : mem O V) this' that' m' :
    produced that ->
    Vec.reset this that m = Done ((this', that'), m') -> produced this'.
End Reach.

(** ** Ownership of a handle by values *)

(** [v] owns the object at [l]. *)
Definition owns (v : Val) (l : loc) : Prop :=
  is_ref (kind_ v) = true /\ impl_ v = impl_ref (Some l).

(** [owns], decided. *)
Definition ownsb (v : Val) (l : loc) : bool :=
  is_ref (kind_ v) &&
  match impl_ v with
  | impl_ref (Some l') => Pos.eqb l' l
  | _ => false
  end.

(** How many of the values [vs] own the object at [l]. *)
Fixpoint owners (l : loc) (vs : list Val) : nat :=
  match vs with
  | [] => 0
  | v :: vs' => (if ownsb v l then 1 else 0) + owners l vs'
  end.

(** The single-owner discipline on the values [vs]: no object has more
    than one owner among them. *)
Definition single_owner (vs : list Val) : Prop :=
  forall l, (owners l vs <= 1)%nat.

(** A call of [release_ref] on [v] breaks the discipline: afterwards
    some object has two owners among [v] and the value that takes the
    returned handle ([Val(own<Ref*>&&)]). *)
Definition release_ref_conflict (cfg : build) (v : Val) : Prop :=
  exists p v',
    Val.release_ref cfg v = Done (p, v') /\
    ~ single_owner [v'; Val.of_ref p].

(** What an accessor gives when the stored kind is not its own: a
    failed assertion, or undefined behaviour once [NDEBUG] removes the
    check. *)
Definition violation {A} (cfg : build) : outcome A :=
  if NDEBUG cfg then Undefined else AssertFail.

(** ** Builds and stores used in the examples *)

(** A 64-bit build with assertions, and one with [NDEBUG]. *)
Definition checked : build := Build false W64.
Definition unchecked : build := Build true W64.

(** An empty store whose allocations succeed or fail as listed. *)
Definition empty_store {O V} (o : list bool) : mem O V := Mem ∅ [] o.

(** A store holding one object, at address 1. *)
Definition one_object {V} : mem nat V := Mem (<[1%positive := Obj 10%nat]> ∅) [] [].

(** A store holding a one-slot pointer block at address 1 whose slot
    owns the object at address 2. *)
Definition slot_store : mem nat ptr :=
  Mem (<[1%positive := Arr [Some (Some 2%positive)]]>
         (<[2%positive := Obj 10%nat]> ∅)) [] [].

(** ** What a block of pointers owns, and the store without it *)

(** The object a cell owns: none for a null or indeterminate cell. *)
Definition cell_target (c : option ptr) : option loc :=
  match c with
  | Some (Some l) => Some l
  | _ => None
  end.

(** The objects owned through a block, in slot order. *)
Definition owned (cs : list (option ptr)) : list loc := omap cell_target cs.

(** The heap after [delete] of each of [ls], first to last. *)
Definition delete_all {B} (ls : list loc) (h : gmap loc B) : gmap loc B :=
  foldl (fun h l => delete l h) h ls.

(** The store after [delete] of each of [ls], first to last. *)
Definition freed {O V} (ls : list loc) (m : mem O V) : mem O V :=
  {| heap := delete_all ls (heap m);
     deleted := reverse ls ++ deleted m;
     oracle := oracle m |}.

(** [vec_traits<Val>]: [new Val[n]] runs [Val()] on every element,
    [move] calls [Val::reset(Val&)] and [delete[]] runs [~Val] on every
    element.  [Val] is move-only, so [copy] is not instantiated. *)
Definition Val_traits {O} : vec_traits O Val := {|
  default_init := Some Val.make;
  elem_destroy := Some (Val.destroy (O:=O) (V:=Val));
  construct := fun _ _ => ret tt;
  destruct := fun _ _ => ret tt;
  move := fun size data init =>
    for_each size (plain_move_at (Val.reset_from (O:=O) (V:=Val)) data) init;
  copy := fun size data init => for_each size (plain_copy_at data init) tt
|}.

(** [m] with the allocation oracle [o]. *)
Definition with_oracle {O V} (o : list bool) (m : mem O V) : mem O V :=
  Mem (heap m) (deleted m) o.

(** A store with two one-slot pointer blocks, at addresses 1 and 3,
    whose slots own the objects at addresses 2 and 4. *)
Definition two_vec_store : mem nat ptr :=
  Mem (<[1%positive := Arr [Some (Some 2%positive)]]>
         (<[2%positive := Obj 10%nat]>
            (<[3%positive := Arr [Some (Some 4%positive)]]>
               (<[4%positive := Obj 20%nat]> ∅)))) [] [].

(** A store holding a block of two plain values at address 1, with one
    allocation to come. *)
Definition bytes_store : mem nat Z :=
  Mem (<[1%positive := Arr [Some 104%Z; Some 105%Z]]> ∅) [] [true].

(** ** What a block of values owns *)

(** The object a value owns: none for a number or a null reference. *)
Definition val_target (v : Val) : option loc :=
  if is_ref (kind_ v) then
    match impl_ v with
    | impl_ref r => r
    | _ => None
    end
  else None.

(** The objects owned by the values [vs], in order. *)
Definition val_owned (vs : list Val) : list loc := omap val_target vs.

(** A store holding a block of two values at address 1: a reference
    that owns the object at address 2, and the number 7. *)
Definition val_block_store : mem nat Val :=
  Mem (<[1%positive := Arr [Some (Val.of_ref (Some 2%positive));
                            Some (Val.of_i32 7)]]>
         (<[2%positive := Obj 10%nat]> ∅)) [] [].

(** The same, with a second block at address 3 whose one value owns the
    object at address 4. *)
Definition two_val_block_store : mem nat Val :=
  Mem (<[1%positive := Arr [Some (Val.of_ref (Some 2%positive));
                            Some (Val.of_i32 7)]]>
         (<[2%positive := Obj 10%nat]>
            (<[3%positive := Arr [Some (Val.of_ref (Some 4%positive))]]>
               (<[4%positive := Obj 20%nat]> ∅)))) [] [].

(** * The store monad *)

Section MonadFacts.
Context {O V : Type}.

Lemma bind_Done {A B} (c : M O V A) (k : A -> M O V B) m a m' :
  c m = Done (a, m') -> bind c k m = k a m'.
Proof. unfold bind. intros ->. reflexivity. Qed.

Lemma bind_inv {A B} (c : M O V A) (k : A -> M O V B) m b m' :
  bind c k m = Done (b, m') ->
  exists a m1, c m = Done (a, m1) /\ k a m1 = Done (b, m').
Proof.
  unfold bind. destruct (c m) as [[a m1]| |]; try discriminate. eauto.
Qed.

Lemma set_heap_id (m : mem O V) : set_heap (heap m) m = m.
Proof. destruct m; reflexivity. Qed.

(** The loop rule: an invariant kept by every iteration holds at exit,
    and the loop runs to completion. *)
Lemma for_from_rule {St} (P : nat -> St -> mem O V -> Prop)
    (body : nat -> St -> M O V St) k :
  forall i s m,
    P i s m ->
    (forall j s m, (i <= j < i + k)%nat -> P j s m ->
       exists s' m', body j s m = Done (s', m') /\ P (S j) s' m') ->
    exists s' m', for_from k i body s m = Done (s', m') /\ P (i + k)%nat s' m'.
Proof.
  induction k as [|k IH]; intros i s m HP Hstep.
  - exists s, m. rewrite Nat.add_0_r. split; [reflexivity | exact HP].
  - destruct (Hstep i s m ltac:(lia) HP) as (s1 & m1 & Hb & HP1).
    destruct (IH (S i) s1 m1 HP1) as (s2 & m2 & Hl & HP2).
    { intros j s' m' Hj. apply Hstep. lia. }
    exists s2, m2. simpl. rewrite (bind_Done _ _ _ _ _ Hb).
    split; [exact Hl |]. replace (i + S k)%nat with (S i + k)%nat by lia.
    exact HP2.
Qed.

Lemma store_Done (a : loc) cs i (x : V) (m : mem O V) :
  heap m !! a = Some (Arr cs) -> (i < length cs)%nat ->
  store (Some a) i x m =
    Done (tt, set_heap (<[a := Arr (<[i := Some x]> cs)]> (heap m)) m).
Proof.
  intros Ha Hi. unfold store. rewrite Ha.
  destruct (decide (i < length cs)%nat); [reflexivity | contradiction].
Qed.

Lemma load_Done (a : loc) cs i (x : V) (m : mem O V) :
  heap m !! a = Some (Arr cs) -> cs !! i = Some (Some x) ->
  load (Some a) i m = Done (x, m).
Proof. intros Ha Hi. unfold load. rewrite Ha, Hi. reflexivity. Qed.
End MonadFacts.

(** Run the first action of a sequence with a known result. *)
Tactic Notation "step" uconstr(H) := rewrite (bind_Done _ _ _ _ _ H).

(** * Properties of [Val] *)

Section ValFacts.
Context {O V : Type}.
Implicit Types (m : mem O V) (v : Val) (cfg : build).

Lemma is_ref_cases k : is_ref k = true <-> k = ANYREF \/ k = FUNCREF.
Proof. destruct k; cbv; intuition congruence. Qed.

Lemma ValKind_eqb_eq a b : ValKind_eqb a b = true <-> a = b.
Proof. destruct a, b; cbv; intuition congruence. Qed.

Lemma is_num_not_ref k : is_num k = negb (is_ref k).
Proof. destruct k; reflexivity. Qed.

(** A well-formed reference-kind value stores a handle. *)
Lemma wf_ref_payload v :
  Val_wf v = true -> is_ref (kind_ v) = true -> exists r, impl_ v = impl_ref r.
Proof.
  destruct v as [k u]. unfold Val_wf. simpl. intros Hwf Hk.
  destruct u; eauto; apply ValKind_eqb_eq in Hwf; subst k; discriminate.
Qed.

Lemma reset_null v m :
  is_ref (kind_ v) = true -> impl_ v = impl_ref nullptr ->
  Val.reset v m = Done (v, m).
Proof. unfold Val.reset. intros -> ->. reflexivity. Qed.

Lemma reset_num v m : is_ref (kind_ v) = false -> Val.reset v m = Done (v, m).
Proof. unfold Val.reset. intros ->. reflexivity. Qed.

Lemma reset_owner v l m :
  owns v l -> live_obj l m ->
  Val.reset v m =
    Done (MkVal (kind_ v) (impl_ref nullptr),
          {| heap := delete l (heap m); deleted := l :: deleted m;
             oracle := oracle m |}).
Proof.
  intros [Hk Hu] [o Ho]. unfold Val.reset. rewrite Hk, Hu. simpl.
  unfold bind, lift, delete_obj. simpl. rewrite Ho. reflexivity.
Qed.

Lemma destroy_null v m :
  is_ref (kind_ v) = true -> impl_ v = impl_ref nullptr ->
  Val.destroy v m = Done (tt, m).
Proof.
  intros Hk Hu. unfold Val.destroy.
  step (reset_null v m Hk Hu). reflexivity.
Qed.

Lemma destroy_owner v l m :
  owns v l -> live_obj l m ->
  Val.destroy v m =
    Done (tt, {| heap := delete l (heap m); deleted := l :: deleted m;
                 oracle := oracle m |}).
Proof.
  intros Hv Hl. unfold Val.destroy.
  step (reset_owner v l m Hv Hl). reflexivity.
Qed.

Lemma times_deleted_cons l l' (h : gmap loc (block O V)) d o :
  times_deleted l (Mem h (l' :: d) o) =
    ((if decide (l' = l) then 1 else 0) + times_deleted l (Mem h d o))%nat.
Proof.
  unfold times_deleted. simpl. rewrite filter_cons.
  destruct (decide (l' = l)); reflexivity.
Qed.

(** Claim C10.  [Val()] has kind [ANYREF], a reference kind, and a null
    reference payload; [ref()] on it returns null in every build, and
    [reset()] and the destructor leave the free store and the deletion
    log as they were. *)
Theorem default_val_null_anyref cfg m :
  Val.kind Val.make = ANYREF /\
  is_ref (Val.kind Val.make) = true /\
  impl_ Val.make = impl_ref nullptr /\
  Val.ref cfg Val.make = Done nullptr /\
  Val.reset Val.make m = Done (Val.make, m) /\
  Val.destroy Val.make m = Done (tt, m).
Proof.
  repeat split.
  - unfold Val.ref, assert. simpl. destruct (NDEBUG cfg); reflexivity.
Qed.

(** Claim C9.  Each payload accessor of a well-formed [Val] checks the
    stored kind against its own tag ([ref] against the reference
    kinds): when they match it returns the stored payload of that kind;
    when they do not, the call is a failed assertion in a checking
    build and undefined under [NDEBUG], never a normal return. *)
Theorem accessor_contract cfg v :
  Val_wf v = true ->
  (if ValKind_eqb (kind_ v) I32
   then exists i, impl_ v = impl_i32 i /\ Val.i32 cfg v = Done i
   else Val.i32 cfg v = violation cfg) /\
  (if ValKind_eqb (kind_ v) I64
   then exists i, impl_ v = impl_i64 i /\ Val.i64 cfg v = Done i
   else Val.i64 cfg v = violation cfg) /\
  (if ValKind_eqb (kind_ v) F32
   then exists z, impl_ v = impl_f32 z /\ Val.f32 cfg v = Done z
   else Val.f32 cfg v = violation cfg) /\
  (if ValKind_eqb (kind_ v) F64
   then exists z, impl_ v = impl_f64 z /\ Val.f64 cfg v = Done z
   else Val.f64 cfg v = violation cfg) /\
  (if is_ref (kind_ v)
   then exists r, impl_ v = impl_ref r /\ Val.ref cfg v = Done r
   else Val.ref cfg v = violation cfg).
Proof.
  destruct v as [k u]. unfold Val_wf. simpl. intros Hwf.
  unfold Val.i32, Val.i64, Val.f32, Val.f64, Val.ref, violation, assert.
  simpl.
  destruct u; simpl in Hwf;
    try (apply ValKind_eqb_eq in Hwf; subst k);
    try (apply is_ref_cases in Hwf; destruct Hwf; subst k);
    repeat split; simpl; destruct (NDEBUG cfg); simpl; eauto.
Qed.

Lemma ownsb_owns (v : Val) l : ownsb v l = true <-> owns v l.
Proof.
  unfold ownsb, owns. rewrite andb_true_iff.
  destruct (impl_ v) as [i | i | z | z | [l' |]];
    split; intros [Hk Hu]; try discriminate; split; try assumption.
  - apply Pos.eqb_eq in Hu. subst l'. reflexivity.
  - injection Hu as ->. apply Pos.eqb_refl.
Qed.

Lemma ownsb_null_handle l : ownsb (Val.of_ref nullptr) l = false.
Proof. reflexivity. Qed.

(** Whatever a value holds, it and a value holding no handle keep the
    single-owner discipline. *)
Lemma single_owner_with_null (v : Val) : single_owner [v; Val.of_ref nullptr].
Proof.
  intros l. cbn [owners]. rewrite ownsb_null_handle.
  destruct (ownsb v l); simpl; lia.
Qed.

(** Claim C2, as amended.  On a reference-kind [Val] holding the handle
    [r], [release_ref] returns a null handle and the [Val] exactly as it
    was: [ref()] still yields [r], and when [r] is a live object the
    [Val] still owns it and its destructor is the one that deletes it.
    Ownership is not transferred out of the [Val], and the single-owner
    discipline is kept: among the [Val] afterwards and a value taking
    the returned handle no object has two owners, and the object at [r]
    has exactly one, the [Val]; together with any other values [vs]
    that kept the discipline with the [Val] before the call, they keep
    it after the call. *)
Theorem release_ref_keeps_owner cfg v r :
  is_ref (kind_ v) = true -> impl_ v = impl_ref r ->
  Val.release_ref cfg v = Done (nullptr, v) /\
  Val.ref cfg v = Done r /\
  (forall l m, r = Some l -> live_obj l m ->
     owns v l /\
     Val.destroy v m =
       Done (tt, {| heap := delete l (heap m); deleted := l :: deleted m;
                    oracle := oracle m |})) /\
  single_owner [v; Val.of_ref nullptr] /\
  (forall l, r = Some l ->
     ownsb v l = true /\ ownsb (Val.of_ref nullptr) l = false /\
     owners l [v; Val.of_ref nullptr] = 1%nat) /\
  (forall vs, single_owner (v :: vs) ->
     single_owner (v :: Val.of_ref nullptr :: vs)) /\
  ~ release_ref_conflict cfg v.
Proof.
  intros Hk Hu.
  assert (Hrel : Val.release_ref cfg v = Done (nullptr, v)).
  { unfold Val.release_ref, assert. rewrite Hk, Hu.
    destruct (NDEBUG cfg); reflexivity. }
  split; [exact Hrel |].
  split.
  { unfold Val.ref, assert. rewrite Hk, Hu. destruct (NDEBUG cfg); reflexivity. }
  split.
  { intros l m Hr Hl. subst r. split; [split; assumption |].
    apply destroy_owner; [split |]; assumption. }
  split; [apply single_owner_with_null |].
  split.
  { intros l Hr. subst r.
    assert (Hb : ownsb v l = true) by (apply ownsb_owns; split; assumption).
    split; [exact Hb |]. split; [reflexivity |].
    cbn [owners]. rewrite Hb, ownsb_null_handle. reflexivity. }
  split.
  { intros vs Hs l. specialize (Hs l). cbn [owners] in *.
    rewrite ownsb_null_handle. exact Hs. }
  intros (p & v' & Hcall & Hbreak).
  pose proof (eq_trans (eq_sym Hrel) Hcall) as Heq.
  injection Heq as <- <-.
  apply Hbreak, single_owner_with_null.
Qed.

Lemma destroy_pair_src_first (src dst : Val) l m :
  is_ref (kind_ src) = true -> impl_ src = impl_ref nullptr ->
  owns dst l -> live_obj l m ->
  (Val.destroy src ;; Val.destroy dst) m =
    Done (tt, {| heap := delete l (heap m); deleted := l :: deleted m;
                 oracle := oracle m |}).
Proof.
  intros Hk Hu Hd Hl.
  step (destroy_null src m Hk Hu).
  apply destroy_owner; assumption.
Qed.

Lemma destroy_pair_dst_first (src dst : Val) l m :
  is_ref (kind_ src) = true -> impl_ src = impl_ref nullptr ->
  owns dst l -> live_obj l m ->
  (Val.destroy dst ;; Val.destroy src) m =
    Done (tt, {| heap := delete l (heap m); deleted := l :: deleted m;
                 oracle := oracle m |}).
Proof.
  intros Hk Hu Hd Hl.
  step (destroy_owner dst l m Hd Hl).
  apply destroy_null; assumption.
Qed.

(** [reset()] of a well-formed value that does not own [l] keeps [l]
    alive and its deletion count unchanged. *)
Lemma reset_other this l m :
  Val_wf this = true ->
  (forall l0, owns this l0 -> l0 <> l /\ live_obj l0 m) ->
  live_obj l m ->
  exists this' m1,
    Val.reset this m = Done (this', m1) /\
    live_obj l m1 /\ times_deleted l m1 = times_deleted l m.
Proof.
  intros Hwf Hown Hl.
  destruct (is_ref (kind_ this)) eqn:Hk.
  - destruct (wf_ref_payload this Hwf Hk) as [[l0|] Hu].
    + destruct (Hown l0 (conj Hk Hu)) as [Hne Hl0].
      eexists _, _. split; [apply reset_owner; [split |]; eassumption |].
      split.
      * destruct Hl as [o Ho]. exists o. simpl.
        rewrite lookup_delete_ne by exact Hne. exact Ho.
      * destruct m as [h d o]. simpl. rewrite times_deleted_cons.
        destruct (decide (l0 = l)); [contradiction | reflexivity].
    + eexists _, _. split; [apply reset_null; assumption |].
      split; [assumption | reflexivity].
  - eexists _, _. split; [apply reset_num; assumption |].
    split; [assumption | reflexivity].
Qed.

(** Claim C7.  Let [that] be a reference-kind [Val] owning the live
    object at [l].  Move construction gives a destination with the tag
    and payload of [that] and leaves [that] with a null handle;
    destructing source and destination, in either order, then runs to
    completion with exactly one [delete], that of [l].  The same holds
    after move assignment into a well-formed [this] that owns nothing or
    a live object other than [l]; the assignment itself does not delete
    [l]. *)
Theorem moved_ref_deleted_once (that : Val) l m :
  owns that l -> live_obj l m ->
  let dst := MkVal (kind_ that) (impl_ref (Some l)) in
  let src := MkVal (kind_ that) (impl_ref nullptr) in
  let once m0 := {| heap := delete l (heap m0); deleted := l :: deleted m0;
                    oracle := oracle m0 |} in
  Val.move that = (dst, src) /\
  (Val.destroy src ;; Val.destroy dst) m = Done (tt, once m) /\
  (Val.destroy dst ;; Val.destroy src) m = Done (tt, once m) /\
  times_deleted l (once m) = S (times_deleted l m) /\
  heap (once m) !! l = None /\
  (forall this,
     Val_wf this = true ->
     (forall l0, owns this l0 -> l0 <> l /\ live_obj l0 m) ->
     exists m1,
       Val.assign this that m = Done ((dst, src), m1) /\
       times_deleted l m1 = times_deleted l m /\
       (Val.destroy src ;; Val.destroy dst) m1 = Done (tt, once m1) /\
       (Val.destroy dst ;; Val.destroy src) m1 = Done (tt, once m1) /\
       times_deleted l (once m1) = S (times_deleted l m)).
Proof.
  intros [Hk Hu] Hl dst src once.
  assert (Hsk : is_ref (kind_ src) = true) by exact Hk.
  assert (Hdst : owns dst l) by (split; [exact Hk | reflexivity]).
  assert (Honce : forall m0, times_deleted l (once m0) = S (times_deleted l m0)).
  { intros [h d o]. unfold once. simpl. rewrite times_deleted_cons.
    destruct (decide (l = l)); [reflexivity | contradiction]. }
  split; [| split; [| split; [| split; [| split]]]].
  - unfold Val.move, Val.moved_from. rewrite Hk, Hu. reflexivity.
  - apply destroy_pair_src_first; auto.
  - apply destroy_pair_dst_first; auto.
  - apply Honce.
  - simpl. apply lookup_delete_eq.
  - intros this Hwf Hown.
    destruct (reset_other this l m Hwf Hown Hl) as (this' & m1 & Hr & Hl1 & Ht).
    exists m1. split; [| split; [| split; [| split]]].
    + unfold Val.assign, Val.reset_from.
      step Hr. unfold ret, Val.moved_from.
      rewrite Hk, Hu. reflexivity.
    + exact Ht.
    + apply destroy_pair_src_first; auto.
    + apply destroy_pair_dst_first; auto.
    + rewrite Honce, Ht. reflexivity.
Qed.
End ValFacts.

Lemma accessor_contract_witness :
  Val_wf (Val.of_i32 7) = true /\
  Val.i32 checked (Val.of_i32 7) = Done 7%Z /\
  Val.ref checked (Val.of_i32 7) = AssertFail /\
  Val.f64 unchecked (Val.of_i32 7) = Undefined.
Proof.
  split; [reflexivity |].
  pose proof (accessor_contract checked (Val.of_i32 7) eq_refl)
    as (H1 & _ & _ & _ & H5).
  pose proof (accessor_contract unchecked (Val.of_i32 7) eq_refl)
    as (_ & _ & _ & H4 & _).
  simpl in H1, H4, H5. destruct H1 as (i & Hi & ->).
  injection Hi as <-. repeat split; assumption.
Defined.

Lemma release_ref_keeps_owner_witness :
  is_ref (kind_ (Val.of_ref (Some 1%positive))) = true /\
  Val.release_ref checked (Val.of_ref (Some 1%positive))
    = Done (nullptr, Val.of_ref (Some 1%positive)) /\
  Val.ref checked (Val.of_ref (Some 1%positive)) = Done (Some 1%positive) /\
  owners 1%positive [Val.of_ref (Some 1%positive); Val.of_ref nullptr] = 1%nat.
Proof.
  pose proof (release_ref_keeps_owner (O:=unit) (V:=unit) checked
                (Val.of_ref (Some 1%positive)) (Some 1%positive)
                eq_refl eq_refl) as (H1 & H2 & _ & _ & H5 & _ & _).
  split; [reflexivity |].
  split; [exact H1 |].
  split; [exact H2 |].
  exact (proj2 (proj2 (H5 1%positive eq_refl))).
Defined.

(** Claim C2 as stated fails: on the value that owns the object at
    address 1, [release_ref] returns a null handle and leaves the value
    as it was, and that is no conflict with the single-owner discipline:
    among the value afterwards and a value taking the returned handle
    the object has one owner, and no object has two. *)
Lemma release_ref_no_conflict :
  Val.release_ref checked (Val.of_ref (Some 1%positive))
    = Done (nullptr, Val.of_ref (Some 1%positive)) /\
  owners 1%positive [Val.of_ref (Some 1%positive); Val.of_ref nullptr] = 1%nat /\
  single_owner [Val.of_ref (Some 1%positive); Val.of_ref nullptr] /\
  ~ release_ref_conflict checked (Val.of_ref (Some 1%positive)).
Proof.
  split; [reflexivity |]. split; [reflexivity |].
  assert (Hone : single_owner [Val.of_ref (Some 1%positive); Val.of_ref nullptr]).
  { intros l. cbn [owners]. rewrite ownsb_null_handle.
    destruct (ownsb _ l); simpl; lia. }
  split; [exact Hone |].
  intros (p & v' & Hcall & Hbreak).
  cbv in Hcall. injection Hcall as <- <-.
  apply Hbreak, Hone.
Qed.

Lemma moved_ref_deleted_once_witness :
  (Val.destroy (snd (Val.move (Val.of_ref (Some 1%positive)))) ;;
   Val.destroy (fst (Val.move (Val.of_ref (Some 1%positive)))))
    (one_object (V:=unit))
    = Done (tt, Mem (delete 1%positive (heap one_object)) [1%positive] []) /\
  times_deleted 1%positive
    (Mem (delete 1%positive (heap (one_object (V:=unit)))) [1%positive] [])
    = 1%nat.
Proof.
  assert (Hown : owns (Val.of_ref (Some 1%positive)) 1%positive)
    by (split; reflexivity).
  assert (Hlive : live_obj 1%positive (one_object (V:=unit)))
    by (exists 10%nat; reflexivity).
  pose proof (moved_ref_deleted_once (Val.of_ref (Some 1%positive)) 1%positive
                one_object Hown Hlive)
    as (Hmv & Hsd & _ & Hcount & _).
  rewrite Hmv. simpl. split; [exact Hsd | exact Hcount].
Defined.

(** * Properties of [vec] *)

Section VecFacts.
Context {O V : Type}.
Implicit Types (cfg : build) (v : vec) (n : N).

(** *** The constructors *)

Lemma init_inv cfg n d v : Vec.init cfg n d = Done v -> v = MkVec n d.
Proof.
  unfold Vec.init, assert.
  destruct (NDEBUG cfg); [| destruct (_ || _)]; simpl; congruence.
Qed.

Lemma init_Done cfg n d :
  vec_inv cfg (MkVec n d) = true -> Vec.init cfg n d = Done (MkVec n d).
Proof.
  unfold Vec.init, vec_inv, assert, Vec.invalid_size. simpl.
  destruct (NDEBUG cfg); [reflexivity |].
  destruct (n =? SIZE_MAX cfg)%N; [rewrite orb_true_r; reflexivity |].
  destruct (n =? 0)%N, d; simpl; intros; try discriminate; reflexivity.
Qed.

Lemma valid_inv_nonsentinel cfg v :
  Vec.valid cfg v = negb (size_ v =? SIZE_MAX cfg)%N.
Proof. reflexivity. Qed.

Lemma SIZE_MAX_pos cfg : (0 < SIZE_MAX cfg)%N.
Proof. unfold SIZE_MAX. destruct (word cfg); reflexivity. Qed.

Lemma vec_inv_empty cfg : vec_inv cfg (MkVec 0 nullptr) = true.
Proof. destruct cfg as [b []]; reflexivity. Qed.

Lemma request_heap (m : mem O V) : heap (snd (request m)) = heap m.
Proof. unfold request. destruct (oracle m); reflexivity. Qed.

Lemma new_array_granted max n init (m : mem O V) :
  granted m -> (n < max)%N ->
  new_array max n init m =
    Done (Some (fresh (dom (heap m))),
          set_heap (<[fresh (dom (heap m)) := Arr (replicate (N.to_nat n) init)]>
                      (heap m)) (snd (request m))).
Proof.
  unfold granted, new_array. intros Hg Hn.
  pose proof (request_heap m) as Hh.
  destruct (request m) as [ok m1]. simpl in *. subst ok.
  apply N.ltb_lt in Hn. rewrite Hn, Hh. reflexivity.
Qed.

Lemma new_array_some max n init (m : mem O V) l m1 :
  new_array max n init m = Done (Some l, m1) ->
  granted m /\ (n < max)%N.
Proof.
  unfold granted, new_array. destruct (request m) as [ok m']. simpl.
  destruct ok; simpl; [| discriminate].
  destruct (n <? max)%N eqn:Hn; [| discriminate].
  intros _. split; [reflexivity | apply N.ltb_lt; exact Hn].
Qed.

Lemma new_array_too_big max init (m : mem O V) :
  new_array max max init m = Done (nullptr, snd (request m)).
Proof.
  unfold new_array. destruct (request m) as [ok m1].
  rewrite N.ltb_irrefl, andb_false_r. reflexivity.
Qed.

Lemma new_array_refused max n init (m : mem O V) :
  fst (request m) = false ->
  new_array max n init m = Done (nullptr, snd (request m)).
Proof.
  unfold new_array. destruct (request m) as [ok m1]. simpl.
  intros ->. reflexivity.
Qed.

Section AnyTraits.
Context {T : vec_traits O V}.

Lemma alloc_zero cfg (m : mem O V) :
  Vec.alloc cfg 0 m = Done (MkVec 0 nullptr, m).
Proof.
  unfold Vec.alloc. simpl. unfold bind, ret, lift.
  rewrite init_Done; [reflexivity | apply vec_inv_empty].
Qed.

Lemma alloc_granted cfg n (m : mem O V) :
  n <> 0%N -> (n < SIZE_MAX cfg)%N -> granted m ->
  Vec.alloc cfg n m =
    Done (MkVec n (Some (fresh (dom (heap m)))),
          set_heap (<[fresh (dom (heap m)) :=
                        Arr (replicate (N.to_nat n) default_init)]> (heap m))
                   (snd (request m))).
Proof.
  intros Hn0 Hn Hg. unfold Vec.alloc.
  destruct (N.eqb_spec n 0); [contradiction |].
  step (new_array_granted _ n _ m Hg Hn).
  unfold lift. rewrite init_Done; [reflexivity |].
  unfold vec_inv. simpl.
  destruct (N.eqb_spec n (SIZE_MAX cfg)); [lia |].
  destruct (N.eqb_spec n 0); [contradiction | reflexivity].
Qed.

(** The slip in [vec(size_t)]: a refused allocation leaves [size_]
    as requested over a null [data_]. *)
Lemma alloc_refused cfg n (m : mem O V) :
  n <> 0%N -> n <> SIZE_MAX cfg -> fst (request m) = false ->
  Vec.alloc cfg n m =
    if NDEBUG cfg then Done (MkVec n nullptr, snd (request m)) else AssertFail.
Proof.
  intros Hn0 Hn Hr. unfold Vec.alloc.
  destruct (N.eqb_spec n 0); [contradiction |].
  step (new_array_refused _ n _ m Hr).
  unfold lift, Vec.init, assert, Vec.invalid_size.
  destruct (NDEBUG cfg); [reflexivity |].
  destruct (N.eqb_spec n 0); [contradiction |].
  destruct (N.eqb_spec n (SIZE_MAX cfg)); [contradiction | reflexivity].
Qed.

(** What [vec(size_t)] returns satisfies the invariant whenever the
    allocation it makes is granted. *)
Lemma alloc_inv cfg n (m : mem O V) v m1 :
  (n <= SIZE_MAX cfg)%N -> n = 0%N \/ granted m ->
  Vec.alloc cfg n m = Done (v, m1) -> vec_inv cfg v = true.
Proof.
  intros Hle Hok Halloc.
  destruct (N.eq_dec n 0%N) as [-> | Hn0].
  { rewrite alloc_zero in Halloc. injection Halloc as <- _.
    apply vec_inv_empty. }
  destruct Hok as [? | Hg]; [contradiction |].
  destruct (N.eq_dec n (SIZE_MAX cfg)) as [Hmax | Hmax].
  - subst n. unfold Vec.alloc in Halloc.
    destruct (N.eqb_spec (SIZE_MAX cfg) 0); [contradiction |].
    rewrite (bind_Done _ _ _ _ _ (new_array_too_big _ _ m)) in Halloc.
    unfold lift in Halloc.
    destruct (Vec.init cfg (SIZE_MAX cfg) nullptr) as [w| |] eqn:Hw;
      try discriminate.
    apply init_inv in Hw. simpl in Halloc. injection Halloc as <- _.
    subst w. unfold vec_inv. simpl. rewrite N.eqb_refl. reflexivity.
  - rewrite alloc_granted in Halloc by (auto; lia).
    injection Halloc as <- _. unfold vec_inv. simpl.
    destruct (N.eqb_spec n (SIZE_MAX cfg)); [contradiction |].
    destruct (N.eqb_spec n 0); [contradiction | reflexivity].
Qed.

Lemma make_uninitialized_alloc cfg n (m : mem O V) v m' :
  Vec.make_uninitialized cfg n m = Done (v, m') ->
  exists m1, Vec.alloc cfg n m = Done (v, m1).
Proof.
  unfold Vec.make_uninitialized. intros H.
  apply bind_inv in H as (w & m1 & Ha & H).
  apply bind_inv in H as (u & m2 & _ & H).
  unfold ret in H. injection H as <- _. eauto.
Qed.

Lemma make_alloc cfg n init (m : mem O V) v init' m' :
  Vec.make cfg n init m = Done ((v, init'), m') ->
  exists m1, Vec.alloc cfg n m = Done (v, m1).
Proof.
  unfold Vec.make. intros H.
  apply bind_inv in H as (w & m1 & Ha & H).
  apply bind_inv in H as (u & m2 & _ & H).
  unfold ret in H. injection H as <- _ _. eauto.
Qed.

Lemma move_from_inv cfg that v that' :
  Vec.move_from cfg that = Done (v, that') ->
  v = that /\ that' = MkVec (size_ that) nullptr.
Proof.
  unfold Vec.move_from. intros H.
  destruct (Vec.init cfg (size_ that) (data_ that)) as [w| |] eqn:Hw;
    try discriminate.
  apply init_inv in Hw. simpl in H. injection H as <- <-.
  subst w. destruct that; split; reflexivity.
Qed.

Lemma reset_inv this that (m : mem O V) this' that' m' :
  Vec.reset this that m = Done ((this', that'), m') ->
  this' = that /\ that' = MkVec (size_ that) nullptr.
Proof.
  unfold Vec.reset. intros H.
  apply bind_inv in H as (u & m1 & _ & H).
  unfold ret in H. injection H as <- <- _.
  destruct that; split; reflexivity.
Qed.

(** Claim C4, as amended.  Every vector returned by
    [make_uninitialized] or [make] when the allocation is granted, by
    [adopt] for a size below the sentinel with a block that is null
    exactly when the size is 0, or by [invalid()], and every
    destination of a move construction, move assignment or [reset]
    from such a vector, satisfies the invariant: [data_] is empty in
    the sentinel state, and otherwise [size_ == 0] iff [data_] is
    empty. *)
Theorem produced_inv cfg v : produced cfg v -> vec_inv cfg v = true.
Proof.
  induction 1 as
    [n m v m' Hle Hok Hrun | n init m v init' m' Hle Hok Hrun
    | args m v m' Hle Hok Hrun | n d v Hlt Hiff Hrun | v Hrun
    | that v that' Hthat IH Hrun
    | this that m this' that' m' Hthat IH Hrun
    | this that m this' that' m' Hthat IH Hrun].
  - apply make_uninitialized_alloc in Hrun as [m1 Ha].
    eapply alloc_inv; eassumption.
  - apply make_alloc in Hrun as [m1 Ha].
    eapply alloc_inv; eassumption.
  - unfold Vec.make_of in Hrun.
    apply bind_inv in Hrun as ([w init'] & m1 & Hmk & Hret).
    unfold ret in Hret. injection Hret as <- _.
    apply make_alloc in Hmk as [m2 Ha].
    eapply alloc_inv; [exact Hle | | exact Ha].
    destruct Hok as [-> | Hg]; [left; reflexivity | right; exact Hg].
  - apply init_inv in Hrun. subst v. unfold vec_inv. simpl.
    destruct (N.eqb_spec n (SIZE_MAX cfg)); [lia |].
    destruct (N.eqb_spec n 0) as [Hz | Hnz], d as [l|]; simpl;
      try reflexivity.
    + apply Hiff in Hz. discriminate.
    + exfalso. apply Hnz, Hiff. reflexivity.
  - apply init_inv in Hrun. subst v. unfold vec_inv, Vec.invalid_size.
    simpl. rewrite N.eqb_refl. reflexivity.
  - apply move_from_inv in Hrun as [-> _]. exact IH.
  - apply reset_inv in Hrun as [-> _]. exact IH.
  - apply reset_inv in Hrun as [-> _]. exact IH.
Qed.

(** The source of a move keeps its size over an empty [data_]: it
    satisfies the invariant only if its size was 0 or the sentinel. *)
Lemma moved_from_source cfg that :
  vec_inv cfg (MkVec (size_ that) nullptr) =
    ((size_ that =? 0)%N || (size_ that =? SIZE_MAX cfg)%N).
Proof.
  unfold vec_inv. simpl.
  destruct (size_ that =? SIZE_MAX cfg)%N; [rewrite orb_true_r |];
    destruct (size_ that =? 0)%N; reflexivity.
Qed.

(** Claim C1, code as written.  When the allocation for a size that
    is neither 0 nor the sentinel is refused, [vec(size_t)] keeps the
    requested size over a null block.  That vector converts to
    [true]; with assertions on, the constructor's assertion fails
    instead, and so do [make_uninitialized] and [make].  In no build
    is the invalid sentinel returned. *)
Theorem refused_allocation_not_invalid cfg n (m : mem O V) :
  n <> 0%N -> n <> SIZE_MAX cfg -> fst (request m) = false ->
  Vec.alloc cfg n m =
    (if NDEBUG cfg then Done (MkVec n nullptr, snd (request m))
     else AssertFail) /\
  Vec.valid cfg (MkVec n nullptr) = true /\
  (NDEBUG cfg = false ->
     Vec.make_uninitialized cfg n m = AssertFail /\
     forall init, Vec.make cfg n init m = AssertFail) /\
  (forall v m', Vec.make_uninitialized cfg n m = Done (v, m') ->
     Vec.valid cfg v = true) /\
  (forall init v init' m', Vec.make cfg n init m = Done ((v, init'), m') ->
     Vec.valid cfg v = true).
Proof.
  intros Hn0 Hmax Hr.
  pose proof (alloc_refused cfg n m Hn0 Hmax Hr) as Ha.
  assert (Hvalid : Vec.valid cfg (MkVec n nullptr) = true).
  { unfold Vec.valid, Vec.invalid_size. simpl.
    destruct (N.eqb_spec n (SIZE_MAX cfg)); [contradiction | reflexivity]. }
  split; [exact Ha |]. split; [exact Hvalid |]. split; [| split].
  - intros Hnd. rewrite Hnd in Ha.
    unfold Vec.make_uninitialized, Vec.make, bind. rewrite Ha.
    split; [reflexivity | intros; reflexivity].
  - intros v m' Hrun. apply make_uninitialized_alloc in Hrun as [m1 Hv].
    rewrite Ha in Hv. destruct (NDEBUG cfg); [| discriminate].
    injection Hv as <- _. exact Hvalid.
  - intros init v init' m' Hrun. apply make_alloc in Hrun as [m1 Hv].
    rewrite Ha in Hv. destruct (NDEBUG cfg); [| discriminate].
    injection Hv as <- _. exact Hvalid.
Qed.
End AnyTraits.
End VecFacts.

(** * The two element kinds *)

Section Kinds.
Context {O V : Type}.
Implicit Types (cfg : build) (v : vec) (n : N).

Lemma valid_empty cfg : Vec.valid cfg (MkVec 0 nullptr) = true.
Proof. destruct cfg as [b []]; reflexivity. Qed.

Lemma make_uninitialized_zero_ptr cfg (m : mem O ptr) :
  Vec.make_uninitialized (T:=ptr_traits) cfg 0 m = Done (MkVec 0 nullptr, m).
Proof.
  unfold Vec.make_uninitialized.
  step (alloc_zero cfg m). rewrite valid_empty. reflexivity.
Qed.

Lemma make_uninitialized_zero_plain cfg elem_reset dflt (m : mem O V) :
  Vec.make_uninitialized (T:=plain_traits elem_reset dflt) cfg 0 m
    = Done (MkVec 0 nullptr, m).
Proof.
  unfold Vec.make_uninitialized.
  step (alloc_zero cfg m). rewrite valid_empty. reflexivity.
Qed.

(** Claim C6.  In every build [invalid()] returns a vector that
    converts to [false]; [make_uninitialized(0)], for pointer and for
    plain elements, returns without allocating a vector that converts
    to [true] and has size 0; the two vectors differ. *)
Theorem invalid_distinct_from_empty cfg :
  Vec.invalid cfg = Done (MkVec (SIZE_MAX cfg) nullptr) /\
  Vec.valid cfg (MkVec (SIZE_MAX cfg) nullptr) = false /\
  (forall m : mem O ptr,
     Vec.make_uninitialized (T:=ptr_traits) cfg 0 m
       = Done (MkVec 0 nullptr, m)) /\
  (forall elem_reset dflt (m : mem O V),
     Vec.make_uninitialized (T:=plain_traits elem_reset dflt) cfg 0 m
       = Done (MkVec 0 nullptr, m)) /\
  Vec.valid cfg (MkVec 0 nullptr) = true /\
  Vec.size (MkVec 0 nullptr) = 0%N /\
  MkVec 0 nullptr <> MkVec (SIZE_MAX cfg) nullptr.
Proof.
  repeat split.
  - unfold Vec.invalid, Vec.invalid_size. apply init_Done.
    unfold vec_inv. simpl. rewrite N.eqb_refl. reflexivity.
  - unfold Vec.valid, Vec.invalid_size. simpl. rewrite N.eqb_refl.
    reflexivity.
  - apply make_uninitialized_zero_ptr.
  - intros. apply make_uninitialized_zero_plain.
  - apply valid_empty.
  - intros Heq. injection Heq as Heq. pose proof (SIZE_MAX_pos cfg). lia.
Qed.

(** *** [make_uninitialized] *)

(** [vec_traits<T*>::construct] over a block of [n] cells: it completes,
    leaves every cell null and touches nothing else. *)
Lemma construct_nulls (a : loc) cs n (m : mem O ptr) :
  heap m !! a = Some (Arr cs) -> length cs = N.to_nat n ->
  construct (vec_traits := ptr_traits) n (Some a) m =
    Done (tt, set_heap (<[a := Arr (replicate (N.to_nat n) (Some nullptr))]>
                          (heap m)) m).
Proof.
  intros Ha Hlen. simpl. unfold for_each.
  destruct (for_from_rule
    (fun j (_ : unit) m' =>
       exists cs', m' = set_heap (<[a := Arr cs']> (heap m)) m /\
                   length cs' = N.to_nat n /\
                   forall t, (t < j)%nat -> cs' !! t = Some (Some nullptr))
    (ptr_construct_at (Some a)) (N.to_nat n) 0%nat tt m)
    as ([] & m' & Hrun & cs' & -> & Hlen' & Hnull).
  - exists cs. split; [| split; [exact Hlen | intros t Ht; lia]].
    rewrite insert_id by exact Ha. symmetry. apply set_heap_id.
  - intros j [] mj Hj (csj & -> & Hlj & Hnj).
    exists tt. eexists. split.
    + unfold ptr_construct_at. apply store_Done with (cs := csj).
      * simpl. apply lookup_insert_eq.
      * lia.
    + exists (<[j := Some nullptr]> csj). split; [| split].
      * unfold set_heap. simpl. rewrite insert_insert_eq. reflexivity.
      * rewrite length_insert. exact Hlj.
      * intros t Ht. destruct (decide (t = j)) as [-> | Hne].
        -- apply list_lookup_insert_eq. lia.
        -- rewrite list_lookup_insert_ne by congruence. apply Hnj. lia.
  - rewrite Hrun.
    replace cs' with (replicate (N.to_nat n) (Some nullptr : option ptr));
      [reflexivity |].
    apply list_eq. intros t. destruct (decide (t < N.to_nat n)%nat) as [Ht | Ht].
    + rewrite Hnull by exact Ht. apply lookup_replicate_2. exact Ht.
    + rewrite !lookup_ge_None_2; [reflexivity | lia | rewrite length_replicate; lia].
Qed.

Lemma make_uninitialized_ptr cfg n (m : mem O ptr) :
  n <> 0%N -> (n < SIZE_MAX cfg)%N -> granted m ->
  Vec.make_uninitialized (T:=ptr_traits) cfg n m =
    Done (MkVec n (Some (fresh (dom (heap m)))),
          set_heap (<[fresh (dom (heap m)) :=
                        Arr (replicate (N.to_nat n) (Some nullptr))]> (heap m))
                   (snd (request m))).
Proof.
  intros Hn0 Hn Hg. unfold Vec.make_uninitialized.
  step (alloc_granted cfg n m Hn0 Hn Hg).
  assert (Hvalid : Vec.valid cfg (MkVec n (Some (fresh (dom (heap m))))) = true).
  { unfold Vec.valid, Vec.invalid_size. simpl.
    destruct (N.eqb_spec n (SIZE_MAX cfg)); [lia | reflexivity]. }
  rewrite Hvalid. simpl data_.
  set (l := fresh (dom (heap m))).
  set (m1 := set_heap _ (snd (request m))).
  assert (Ha : heap m1 !! l = Some (Arr (replicate (N.to_nat n) None)))
    by (simpl; apply lookup_insert_eq).
  step (construct_nulls l _ n m1 Ha (length_replicate _ _)).
  unfold ret, set_heap, m1. simpl. rewrite insert_insert_eq. reflexivity.
Qed.

(** Claim C5.  For every size [n] whose allocation succeeds (none is
    made for [n = 0]), [make_uninitialized(n)] returns a vector that
    converts to [true] and has [size() == n]; for pointer elements,
    reading any slot [i < n] through [operator[]] gives null. *)
Theorem make_uninitialized_valid cfg n :
  (forall m : mem O ptr,
     n = 0%N \/
     (exists l m1, new_array (SIZE_MAX cfg) n (@default_init O ptr ptr_traits) m
                     = Done (Some l, m1)) ->
     exists v m',
       Vec.make_uninitialized (T:=ptr_traits) cfg n m = Done (v, m') /\
       Vec.valid cfg v = true /\ Vec.size v = n /\
       forall i, (i < n)%N -> proxy_get (Vec.at_ v i) m' = Done (nullptr, m')) /\
  (forall elem_reset dflt (m : mem O V),
     n = 0%N \/
     (exists l m1, new_array (SIZE_MAX cfg) n dflt m = Done (Some l, m1)) ->
     exists v m',
       Vec.make_uninitialized (T:=plain_traits elem_reset dflt) cfg n m
         = Done (v, m') /\
       Vec.valid cfg v = true /\ Vec.size v = n).
Proof.
  pose proof (make_uninitialized_zero_ptr cfg) as Hp0.
  pose proof (make_uninitialized_zero_plain cfg) as Hv0.
  pose proof (valid_empty cfg) as Hvalid0.
  split.
  - intros m [-> | (l & m1 & Hnew)].
    + exists (MkVec 0 nullptr), m. rewrite Hp0.
      repeat split; [exact Hvalid0 | intros i Hi; lia].
    + apply new_array_some in Hnew as [Hg Hn].
      destruct (N.eq_dec n 0%N) as [-> | Hn0].
      { exists (MkVec 0 nullptr), m. rewrite Hp0.
        repeat split; [exact Hvalid0 | intros i Hi; lia]. }
      eexists _, _. split; [apply make_uninitialized_ptr; assumption |].
      split; [| split; [reflexivity |]].
      * unfold Vec.valid, Vec.invalid_size. simpl.
        destruct (N.eqb_spec n (SIZE_MAX cfg)); [lia | reflexivity].
      * intros i Hi. unfold proxy_get, Vec.at_.
        cbn [elem_data elem_index data_].
        eapply load_Done.
        -- simpl. apply lookup_insert_eq.
        -- apply lookup_replicate_2. lia.
  - intros er dflt m [-> | (l & m1 & Hnew)].
    + exists (MkVec 0 nullptr), m. rewrite Hv0. auto.
    + apply new_array_some in Hnew as [Hg Hn].
      destruct (N.eq_dec n 0%N) as [-> | Hn0].
      { exists (MkVec 0 nullptr), m. rewrite Hv0. auto. }
      assert (Hvalid : forall d, Vec.valid cfg (MkVec n d) = true).
      { intros d. unfold Vec.valid, Vec.invalid_size. simpl.
        destruct (N.eqb_spec n (SIZE_MAX cfg)); [lia | reflexivity]. }
      eexists _, _. split; [| split; [apply Hvalid | reflexivity]].
      unfold Vec.make_uninitialized.
      step (alloc_granted (T:=plain_traits er dflt) cfg n m Hn0 Hn Hg).
      rewrite Hvalid. reflexivity.
Qed.

(** *** The element proxy *)

(** Claim C8.  Let slot [i] of the block of a pointer vector [v] hold
    [old], null or a live object.  [reset(val)] and [operator=(val)]
    through the proxy [v[i]] delete [old] when it is not null, store
    [val] in the slot and change nothing else in the free store;
    [release()] and [move()] return [old] and leave the slot null,
    deleting nothing. *)
Theorem proxy_contract v (a : loc) (i : N) cs (old val : ptr) (m : mem O ptr) :
  data_ v = Some a ->
  heap m !! a = Some (Arr cs) -> cs !! N.to_nat i = Some (Some old) ->
  (forall l, old = Some l -> live_obj l m) ->
  let slot x h := <[a := Arr (<[N.to_nat i := Some x]> cs)]> h in
  let m_reset :=
    {| heap := slot val (match old with
                         | Some l => delete l (heap m)
                         | None => heap m
                         end);
       deleted := match old with
                  | Some l => l :: deleted m
                  | None => deleted m
                  end;
       oracle := oracle m |} in
  let m_release := set_heap (slot nullptr (heap m)) m in
  proxy_reset (Vec.at_ v i) val m = Done (tt, m_reset) /\
  proxy_assign (Vec.at_ v i) val m = Done (tt, m_reset) /\
  proxy_get (Vec.at_ v i) m_reset = Done (val, m_reset) /\
  proxy_release (Vec.at_ v i) m = Done (old, m_release) /\
  proxy_move (Vec.at_ v i) m = Done (old, m_release) /\
  proxy_get (Vec.at_ v i) m_release = Done (nullptr, m_release).
Proof.
  intros Hv Ha Hi Hold slot m_reset m_release.
  assert (Hlt : (N.to_nat i < length cs)%nat) by (eapply lookup_lt_Some; exact Hi).
  assert (Hreset : proxy_reset (Vec.at_ v i) val m = Done (tt, m_reset)).
  { unfold proxy_reset, Vec.at_. rewrite Hv. simpl.
    step (load_Done a cs _ old m Ha Hi).
    destruct old as [l|].
    - destruct (Hold l eq_refl) as [o Ho].
      assert (Hne : l <> a) by (intros ->; rewrite Ha in Ho; discriminate).
      unfold bind at 1. unfold delete_obj. rewrite Ho.
      erewrite store_Done; [reflexivity | | exact Hlt].
      simpl. rewrite lookup_delete_ne by exact Hne. exact Ha.
    - unfold bind at 1. unfold ret.
      erewrite store_Done; [| exact Ha | exact Hlt].
      destruct m; reflexivity. }
  assert (Hrelease : proxy_release (Vec.at_ v i) m = Done (old, m_release)).
  { unfold proxy_release, Vec.at_. rewrite Hv. simpl.
    step (load_Done a cs _ old m Ha Hi).
    step (store_Done a cs _ nullptr m Ha Hlt).
    reflexivity. }
  repeat split; try assumption.
  - unfold proxy_get, Vec.at_. rewrite Hv. cbn [elem_data elem_index].
    eapply load_Done; [apply lookup_insert_eq |].
    apply list_lookup_insert_eq. exact Hlt.
  - unfold proxy_get, Vec.at_. rewrite Hv. cbn [elem_data elem_index].
    eapply load_Done; [apply lookup_insert_eq |].
    apply list_lookup_insert_eq. exact Hlt.
Qed.

(** *** [copy] *)

Lemma valid_below cfg n d : (n < SIZE_MAX cfg)%N -> Vec.valid cfg (MkVec n d) = true.
Proof.
  intros Hn. unfold Vec.valid, Vec.invalid_size. simpl.
  destruct (N.eqb_spec n (SIZE_MAX cfg)); [lia | reflexivity].
Qed.

(** [copy()] of a vector of plain values: the result owns a new block
    with the same values, and the store is otherwise unchanged. *)
Lemma copy_plain cfg elem_reset dflt n (a : loc) (xs : list V) (m : mem O V) :
  n <> 0%N -> (n < SIZE_MAX cfg)%N -> granted m ->
  heap m !! a = Some (Arr (Some <$> xs)) -> length xs = N.to_nat n ->
  Vec.copy (T:=plain_traits elem_reset dflt) cfg (MkVec n (Some a)) m =
    Done (MkVec n (Some (fresh (dom (heap m)))),
          set_heap (<[fresh (dom (heap m)) := Arr (Some <$> xs)]> (heap m))
                   (snd (request m))).
Proof.
  intros Hn0 Hn Hg Ha Hlen. unfold Vec.copy. simpl size_. simpl data_.
  step (alloc_granted (T:=plain_traits elem_reset dflt) cfg n m Hn0 Hn Hg).
  rewrite valid_below by exact Hn. simpl data_.
  set (a' := fresh (dom (heap m))).
  assert (Hfresh : heap m !! a' = None).
  { apply not_elem_of_dom. apply is_fresh. }
  assert (Hne : a' <> a) by (intros ->; congruence).
  set (m1 := set_heap _ (snd (request m))).
  destruct (for_from_rule
    (fun j (_ : unit) m' =>
       exists cs', m' = set_heap (<[a' := Arr cs']> (heap m)) m1 /\
                   length cs' = N.to_nat n /\
                   forall t, (t < j)%nat -> cs' !! t = (Some <$> xs) !! t)
    (plain_copy_at (Some a') (Some a)) (N.to_nat n) 0%nat tt m1)
    as ([] & m' & Hrun & cs' & -> & Hlen' & Hsame).
  - exists (replicate (N.to_nat n) dflt). split; [| split].
    + reflexivity.
    + apply length_replicate.
    + intros t Ht. lia.
  - intros j [] mj Hj (csj & -> & Hlj & Hsj).
    assert (Hxj : exists x, xs !! j = Some x).
    { apply lookup_lt_is_Some. lia. }
    destruct Hxj as [x Hx].
    assert (Hsrc : heap (set_heap (<[a' := Arr csj]> (heap m)) m1) !! a
                   = Some (Arr (Some <$> xs)))
      by (simpl; rewrite lookup_insert_ne by exact Hne; exact Ha).
    assert (Hxs : (Some <$> xs) !! j = Some (Some x))
      by (rewrite list_lookup_fmap, Hx; reflexivity).
    exists tt. eexists. split.
    + unfold plain_copy_at. step (load_Done a _ j x _ Hsrc Hxs).
      apply store_Done with (cs := csj); [simpl; apply lookup_insert_eq | lia].
    + exists (<[j := Some x]> csj). split; [| split].
      * unfold set_heap. simpl. rewrite insert_insert_eq. reflexivity.
      * rewrite length_insert. exact Hlj.
      * intros t Ht. destruct (decide (t = j)) as [-> | Hnj].
        -- rewrite list_lookup_insert_eq by lia. rewrite list_lookup_fmap, Hx.
           reflexivity.
        -- rewrite list_lookup_insert_ne by congruence. apply Hsj. lia.
  - unfold for_each. simpl copy. unfold for_each.
    step Hrun. unfold ret.
    replace cs' with (Some <$> xs); [reflexivity |].
    apply list_eq. intros t. destruct (decide (t < N.to_nat n)%nat) as [Ht | Ht].
    + symmetry. apply Hsame. lia.
    + rewrite !lookup_ge_None_2; [reflexivity | lia | rewrite length_fmap; lia].
Qed.

Lemma request_drop (m mj : mem O ptr) c :
  oracle mj = drop c (oracle m) -> oracle m !! c = Some true ->
  request mj = (true, Mem (heap mj) (deleted mj) (drop (S c) (oracle m))).
Proof.
  intros Ho Hc. unfold request. rewrite Ho, (drop_S _ _ _ Hc). reflexivity.
Qed.

(** [copy()] of a vector of owned pointers whose slots are null or own
    live objects, when every allocation is granted: the result owns a
    new block; for each non-null source slot it holds a new object, equal
    in value to the original, at an address that was not in use; the
    original objects and the source block are unchanged and nothing is
    deleted.  The cell for a null source slot is left as allocated,
    indeterminate. *)
Lemma copy_ptr cfg n (a : loc) cs (m : mem O ptr) :
  n <> 0%N -> (n < SIZE_MAX cfg)%N ->
  heap m !! a = Some (Arr cs) -> length cs = N.to_nat n ->
  (forall t, (t < N.to_nat n)%nat ->
     exists p, cs !! t = Some (Some p) /\ forall l, p = Some l -> live_obj l m) ->
  (forall k, (k <= N.to_nat n)%nat -> oracle m !! k = Some true) ->
  exists cs' m',
    Vec.copy (T:=ptr_traits) cfg (MkVec n (Some a)) m
      = Done (MkVec n (Some (fresh (dom (heap m)))), m') /\
    heap m' !! fresh (dom (heap m)) = Some (Arr cs') /\
    length cs' = N.to_nat n /\
    deleted m' = deleted m /\
    (forall x b, heap m !! x = Some b -> heap m' !! x = Some b) /\
    (forall t, (t < N.to_nat n)%nat ->
       (cs !! t = Some (Some nullptr) -> cs' !! t = Some None) /\
       (forall l, cs !! t = Some (Some (Some l)) ->
          exists l' o, cs' !! t = Some (Some (Some l')) /\
                       heap m !! l' = None /\
                       heap m !! l = Some (Obj o) /\
                       heap m' !! l' = Some (Obj o))) /\
    (forall t1 t2 l1 l2, t1 <> t2 ->
       cs' !! t1 = Some (Some (Some l1)) -> cs' !! t2 = Some (Some (Some l2)) ->
       l1 <> l2).
Proof.
  intros Hn0 Hn Ha Hlen Hcs Hor. unfold Vec.copy. simpl size_. simpl data_.
  assert (Hg : granted m).
  { unfold granted, request. specialize (Hor 0%nat ltac:(lia)).
    destruct (oracle m) as [|b o]; [discriminate |]. simpl in *. congruence. }
  step (alloc_granted (T:=ptr_traits) cfg n m Hn0 Hn Hg).
  rewrite valid_below by exact Hn. simpl data_.
  set (a' := fresh (dom (heap m))).
  assert (Hfresh : heap m !! a' = None) by (apply not_elem_of_dom, is_fresh).
  set (m1 := set_heap _ (snd (request m))).
  assert (Hm1o : oracle m1 = drop 1 (oracle m)).
  { unfold m1. clear. destruct m as [h d [|b o]]; reflexivity. }
  assert (Hm1d : deleted m1 = deleted m).
  { unfold m1. clear. destruct m as [h d [|b o]]; reflexivity. }
  destruct (for_from_rule
    (fun j (_ : unit) mj =>
       exists csj c,
         heap mj !! a' = Some (Arr csj) /\ length csj = N.to_nat n /\
         deleted mj = deleted m /\
         (c <= S j)%nat /\ oracle mj = drop c (oracle m) /\
         (forall x b, heap m !! x = Some b -> heap mj !! x = Some b) /\
         (forall t, (j <= t < N.to_nat n)%nat -> csj !! t = Some None) /\
         (forall t, (t < j)%nat ->
            (cs !! t = Some (Some nullptr) -> csj !! t = Some None) /\
            (forall l, cs !! t = Some (Some (Some l)) ->
               exists l' o, csj !! t = Some (Some (Some l')) /\
                            heap m !! l' = None /\
                            heap m !! l = Some (Obj o) /\
                            heap mj !! l' = Some (Obj o))) /\
         (forall t l1, csj !! t = Some (Some (Some l1)) ->
            is_Some (heap mj !! l1)) /\
         (forall t1 t2 l1 l2, t1 <> t2 ->
            csj !! t1 = Some (Some (Some l1)) ->
            csj !! t2 = Some (Some (Some l2)) -> l1 <> l2))
    (ptr_copy_at (Some a') (Some a)) (N.to_nat n) 0%nat tt m1)
    as ([] & m' & Hrun & cs' & c & Ha' & Hlen' & Hdel & _ & _ & Hkeep & _
        & Hcopied & _ & Hdist).
  - (* the invariant holds on entry *)
    exists (replicate (N.to_nat n) None), 1%nat.
    split; [simpl; apply lookup_insert_eq |].
    split; [apply length_replicate |].
    split; [exact Hm1d |]. split; [lia |]. split; [exact Hm1o |].
    split.
    { intros x b Hx. simpl. rewrite lookup_insert_ne; [exact Hx |].
      intros <-. congruence. }
    split; [intros t Ht; apply lookup_replicate_2; lia |].
    split; [intros t Ht; lia |].
    split.
    { intros t l1 Hl1. apply lookup_replicate in Hl1 as [? _]. discriminate. }
    intros t1 t2 l1 l2 _ Hl1. apply lookup_replicate in Hl1 as [? _]. discriminate.
  - (* one iteration keeps it *)
    intros j [] mj Hj
      (csj & cj & Haj & Hlj & Hdj & Hcj & Hoj & Hkj & Hrest & Hcp & Hlive & Hdj2).
    destruct (Hcs j ltac:(lia)) as (p & Hp & Hplive).
    assert (Hjlt : (j < length csj)%nat) by lia.
    assert (Hsrc : heap mj !! a = Some (Arr cs)) by (apply Hkj; exact Ha).
    unfold ptr_copy_at.
    step (load_Done a cs j p mj Hsrc Hp).
    destruct p as [l|].
    + destruct (Hplive l eq_refl) as [o Ho].
      assert (Hlj' : heap mj !! l = Some (Obj o)) by (apply Hkj; exact Ho).
      set (l' := fresh (dom (heap mj))).
      assert (Hl'fresh : heap mj !! l' = None) by (apply not_elem_of_dom, is_fresh).
      assert (Hl'a : l' <> a') by (intros Heq; rewrite Heq in Hl'fresh; congruence).
      assert (Hcopy : obj_copy l mj =
                Done (Some l', Mem (<[l' := Obj o]> (heap mj)) (deleted mj)
                                   (drop (S cj) (oracle m)))).
      { unfold obj_copy. rewrite Hlj'.
        rewrite (request_drop m mj cj Hoj (Hor cj ltac:(lia))). reflexivity. }
      step Hcopy.
      exists tt. eexists. split.
      * apply store_Done with (cs := csj); [| lia].
        simpl. rewrite lookup_insert_ne by exact Hl'a. exact Haj.
      * exists (<[j := Some (Some l')]> csj), (S cj).
        unfold set_heap. cbn [heap deleted oracle].
        split; [apply lookup_insert_eq |].
        split; [rewrite length_insert; exact Hlj |].
        split; [exact Hdj |]. split; [lia |]. split; [reflexivity |].
        split.
        { intros x b Hx. specialize (Hkj x b Hx).
          rewrite !lookup_insert_ne; [exact Hkj | congruence | congruence]. }
        split.
        { intros t Ht. rewrite list_lookup_insert_ne by lia. apply Hrest. lia. }
        split.
        { intros t Ht. destruct (decide (t = j)) as [Heq | Hne]; [subst t |].
          - split;
              [intros Hnull; pose proof (eq_trans (eq_sym Hp) Hnull) as E;
               discriminate E |].
            intros l0 Hl0. assert (l0 = l) by congruence. subst l0.
            exists l', o. split; [apply list_lookup_insert_eq; exact Hjlt |].
            split.
            { destruct (heap m !! l') as [b|] eqn:Hb; [| reflexivity].
              apply Hkj in Hb. rewrite Hl'fresh in Hb. discriminate. }
            split; [exact Ho |].
            rewrite lookup_insert_ne by congruence. apply lookup_insert_eq.
          - rewrite list_lookup_insert_ne by congruence.
            destruct (Hcp t ltac:(lia)) as [Hnull Hobj]. split; [exact Hnull |].
            intros l0 Hl0. destruct (Hobj l0 Hl0) as (l0' & o0 & H1 & H2 & H3 & H4).
            assert (a' <> l0') by (intros <-; rewrite Haj in H4; discriminate).
            assert (l' <> l0')
              by (intros <-; rewrite Hl'fresh in H4; discriminate).
            exists l0', o0.
            split; [rewrite list_lookup_insert_ne by congruence; exact H1 |].
            split; [exact H2 |]. split; [exact H3 |].
            rewrite !lookup_insert_ne by assumption. exact H4. }
        split.
        { intros t l1. destruct (decide (t = j)) as [Heq | Hne]; [subst t |].
          - rewrite list_lookup_insert_eq by exact Hjlt. intros [= <-].
            rewrite lookup_insert_ne by congruence. rewrite lookup_insert_eq. eauto.
          - rewrite list_lookup_insert_ne by congruence. intros Hl1.
            destruct (Hlive t l1 Hl1) as [b Hb].
            destruct (decide (l1 = a')) as [-> | Hna];
              [rewrite lookup_insert_eq; eauto |].
            rewrite !lookup_insert_ne; [eauto | congruence | congruence]. }
        intros t1 t2 l1 l2 Hne.
        destruct (decide (t1 = j)) as [E1 | H1], (decide (t2 = j)) as [E2 | H2];
          try subst t1; try subst t2; try congruence.
        -- rewrite list_lookup_insert_eq by exact Hjlt.
           rewrite list_lookup_insert_ne by congruence.
           intros [= <-] Hl2. destruct (Hlive t2 l2 Hl2) as [b Hb]. congruence.
        -- rewrite list_lookup_insert_ne by congruence.
           rewrite list_lookup_insert_eq by exact Hjlt.
           intros Hl1 [= <-]. destruct (Hlive t1 l1 Hl1) as [b Hb]. congruence.
        -- rewrite !list_lookup_insert_ne by congruence. apply Hdj2. exact Hne.
    + exists tt, mj. split; [reflexivity |].
      exists csj, cj.
      split; [exact Haj |]. split; [exact Hlj |]. split; [exact Hdj |].
      split; [lia |]. split; [exact Hoj |]. split; [exact Hkj |].
      split; [intros t Ht; apply Hrest; lia |].
      split; [| split; [exact Hlive | exact Hdj2]].
      intros t Ht. destruct (decide (t = j)) as [Heq | Hne]; [subst t |].
      * split; [intros _; apply Hrest; lia | intros l Hl; congruence].
      * apply Hcp. lia.
  - (* the whole call *)
    exists cs', m'. simpl copy. unfold for_each.
    step Hrun. unfold ret.
    split; [reflexivity |]. split; [exact Ha' |]. split; [exact Hlen' |].
    split; [exact Hdel |]. split; [exact Hkeep |].
    split; [| exact Hdist].
    intros t Ht. apply Hcopied. lia.
Qed.

(** Claim C3, code as written.  In every build, copying the pointer
    vector [make_uninitialized(1)], whose one slot is null, returns a
    vector whose slot was never written: the cell is indeterminate, not
    null, so reading it through [operator[]] and destroying the copy
    are undefined. *)
Theorem copy_skips_null_slot cfg :
  let src := MkVec 1 (Some 1%positive) in
  let dst := MkVec 1 (Some 2%positive) in
  exists m1 m2 : mem O ptr,
    Vec.make_uninitialized (T:=ptr_traits) cfg 1 (empty_store [true; true])
      = Done (src, m1) /\
    proxy_get (Vec.at_ src 0) m1 = Done (nullptr, m1) /\
    Vec.copy (T:=ptr_traits) cfg src m1 = Done (dst, m2) /\
    heap m2 !! 2%positive = Some (Arr [None]) /\
    heap m2 !! 1%positive = Some (Arr [Some nullptr]) /\
    proxy_get (Vec.at_ dst 0) m2 = Undefined /\
    Vec.destroy (T:=ptr_traits) dst m2 = Undefined.
Proof.
  intros src dst.
  exists (Mem (<[1%positive := Arr [Some nullptr]]> ∅) [] [true]).
  exists (Mem (<[2%positive := Arr [None]]>
                 (<[1%positive := Arr [Some nullptr]]> ∅)) [] []).
  destruct cfg as [[] []]; repeat split; reflexivity.
Qed.
End Kinds.

(** * The claims at concrete inputs *)

Lemma produced_inv_witness :
  produced (O:=nat) (T:=ptr_traits) checked (MkVec 2 (Some 1%positive)) /\
  vec_inv checked (MkVec 2 (Some 1%positive)) = true.
Proof.
  assert (Hp : produced (O:=nat) (T:=ptr_traits) checked (MkVec 2 (Some 1%positive))).
  { apply prod_move with (that := MkVec 2 (Some 1%positive))
                         (that' := MkVec 2 nullptr); [| reflexivity].
    apply prod_make_uninitialized
      with (n := 2%N) (m := empty_store [true])
           (m' := Mem (<[1%positive := Arr [Some nullptr; Some nullptr]]> ∅) [] []).
    - unfold checked, SIZE_MAX. simpl. lia.
    - right. reflexivity.
    - reflexivity. }
  split; [exact Hp | exact (produced_inv checked _ Hp)].
Defined.

(** Claim C4 as stated fails: after [v = make_uninitialized(2)] and the
    move assignment [w = std::move(v)] into [w = invalid()], the source
    [v] has size 2 over an empty block and is not the sentinel.  A second
    move assignment [u = std::move(v)] hands that state on to its
    destination. *)
Lemma moved_from_source_breaks_inv :
  (exists m1 m2 : mem nat ptr,
     Vec.make_uninitialized (T:=ptr_traits) checked 2 (empty_store [true])
       = Done (MkVec 2 (Some 1%positive), m1) /\
     Vec.invalid checked = Done (MkVec (SIZE_MAX checked) nullptr) /\
     Vec.assign (MkVec (SIZE_MAX checked) nullptr) (MkVec 2 (Some 1%positive)) m1
       = Done ((MkVec 2 (Some 1%positive), MkVec 2 nullptr), m2) /\
     Vec.assign (MkVec (SIZE_MAX checked) nullptr) (MkVec 2 nullptr) m2
       = Done ((MkVec 2 nullptr, MkVec 2 nullptr), m2)) /\
  vec_inv checked (MkVec 2 nullptr) = false /\
  ~ (forall v, reachable (O:=nat) (T:=ptr_traits) checked v ->
               vec_inv checked v = true).
Proof.
  split; [| split].
  - exists (Mem (<[1%positive := Arr [Some nullptr; Some nullptr]]> ∅) [] []).
    eexists. repeat split; reflexivity.
  - reflexivity.
  - intros Hall.
    assert (Hr : reachable (O:=nat) (T:=ptr_traits) checked (MkVec 2 nullptr)).
    { apply reach_assign_src
        with (this := MkVec (SIZE_MAX checked) nullptr)
             (that := MkVec 2 (Some 1%positive))
             (m := Mem (<[1%positive := Arr [Some nullptr; Some nullptr]]> ∅) [] [])
             (this' := MkVec 2 (Some 1%positive))
             (m' := Mem (<[1%positive := Arr [Some nullptr; Some nullptr]]> ∅) [] []).
      - apply reach_invalid. reflexivity.
      - apply reach_make_uninitialized
          with (n := 2%N) (m := empty_store [true])
               (m' := Mem (<[1%positive := Arr [Some nullptr; Some nullptr]]> ∅) [] []).
        + unfold checked, SIZE_MAX. simpl. lia.
        + reflexivity.
      - reflexivity. }
    specialize (Hall _ Hr). discriminate Hall.
Qed.

Lemma refused_allocation_not_invalid_witness :
  Vec.make_uninitialized (T:=ptr_traits) checked 3 (empty_store (O:=nat) [false])
    = AssertFail /\
  Vec.alloc (T:=plain_traits (fun a b : Z => ret (b, a)) None) unchecked 3
      (empty_store (O:=nat) [false])
    = Done (MkVec 3 nullptr, empty_store []) /\
  Vec.valid unchecked (MkVec 3 nullptr) = true.
Proof.
  assert (H3 : 3%N <> 0%N) by discriminate.
  assert (Hc : 3%N <> SIZE_MAX checked) by discriminate.
  assert (Hu : 3%N <> SIZE_MAX unchecked) by discriminate.
  pose proof (refused_allocation_not_invalid (T:=ptr_traits) checked 3
                (empty_store (O:=nat) [false]) H3 Hc eq_refl)
    as (_ & _ & Hdbg & _).
  pose proof (refused_allocation_not_invalid
                (T:=plain_traits (fun a b : Z => ret (b, a)) None) unchecked 3
                (empty_store (O:=nat) [false]) H3 Hu eq_refl)
    as (Halloc & Hvalid & _).
  split; [exact (proj1 (Hdbg eq_refl)) |]. split; [exact Halloc | exact Hvalid].
Defined.

Lemma make_uninitialized_valid_witness :
  exists v m',
    Vec.make_uninitialized (T:=ptr_traits) checked 2 (empty_store (O:=nat) [true])
      = Done (v, m') /\
    Vec.valid checked v = true /\ Vec.size v = 2%N /\
    forall i, (i < 2)%N -> proxy_get (Vec.at_ v i) m' = Done (nullptr, m').
Proof.
  apply (proj1 (make_uninitialized_valid (O:=nat) (V:=Z) checked 2)).
  right. eexists _, _. reflexivity.
Defined.

Lemma proxy_contract_witness :
  proxy_reset (Vec.at_ (MkVec 1 (Some 1%positive)) 0) (Some 3%positive) slot_store
    = Done (tt, Mem (<[1%positive := Arr [Some (Some 3%positive)]]>
                       (delete 2%positive (heap slot_store)))
                    [2%positive] []) /\
  proxy_release (Vec.at_ (MkVec 1 (Some 1%positive)) 0) slot_store
    = Done (Some 2%positive,
            Mem (<[1%positive := Arr [Some nullptr]]> (heap slot_store)) [] []).
Proof.
  assert (Hlive : forall l, Some 2%positive = Some l -> live_obj l slot_store).
  { intros l [= <-]. exists 10%nat. reflexivity. }
  pose proof (proxy_contract (MkVec 1 (Some 1%positive)) 1%positive 0
                [Some (Some 2%positive)] (Some 2%positive) (Some 3%positive)
                slot_store eq_refl eq_refl eq_refl Hlive)
    as (Hreset & _ & _ & Hrelease & _).
  split; [exact Hreset | exact Hrelease].
Defined.

(** * Destruction of pointer vectors *)

Section Destroy.
Context {O : Type}.
Implicit Types (m : mem O ptr) (cs : list (option ptr)) (ls : list loc).

Lemma delete_obj_Done {V} (l : loc) (o : O) (m : mem O V) :
  heap m !! l = Some (Obj o) ->
  delete_obj l m =
    Done (tt, {| heap := delete l (heap m); deleted := l :: deleted m;
                 oracle := oracle m |}).
Proof. intros Hl. unfold delete_obj. rewrite Hl. reflexivity. Qed.

Lemma delete_all_snoc {B} ls l (h : gmap loc B) :
  delete_all (ls ++ [l]) h = delete l (delete_all ls h).
Proof. unfold delete_all. rewrite foldl_app. reflexivity. Qed.

Lemma lookup_delete_all_notin {B} ls l (h : gmap loc B) :
  l ∉ ls -> delete_all ls h !! l = h !! l.
Proof.
  revert h. induction ls as [|x ls IH]; intros h Hl; [reflexivity |].
  apply not_elem_of_cons in Hl as [Hne Hl]. simpl.
  change (delete_all ls (delete x h) !! l = h !! l).
  rewrite IH by exact Hl. apply lookup_delete_ne. congruence.
Qed.

Lemma lookup_delete_all_in {B} ls l (h : gmap loc B) :
  l ∈ ls -> delete_all ls h !! l = None.
Proof.
  induction ls as [|x ls IH] using rev_ind; intros Hl.
  - apply elem_of_nil in Hl. contradiction.
  - rewrite delete_all_snoc. apply elem_of_app in Hl as [Hl | Hl].
    + destruct (decide (x = l)) as [-> | Hne]; [apply lookup_delete_eq |].
      rewrite lookup_delete_ne by exact Hne. apply IH, Hl.
    + apply list_elem_of_singleton in Hl as ->. apply lookup_delete_eq.
Qed.

Lemma freed_snoc ls l m :
  {| heap := delete l (heap (freed ls m));
     deleted := l :: deleted (freed ls m);
     oracle := oracle (freed ls m) |} = freed (ls ++ [l]) m.
Proof.
  unfold freed. simpl. rewrite delete_all_snoc, reverse_snoc. reflexivity.
Qed.

Lemma owned_take_S cs j c :
  cs !! j = Some c ->
  owned (take (S j) cs) =
    owned (take j cs) ++ match cell_target c with Some l => [l] | None => [] end.
Proof.
  intros Hc. unfold owned. rewrite (take_S_r _ _ _ Hc), omap_app. simpl.
  destruct (cell_target c); reflexivity.
Qed.

Lemma owned_split cs j c :
  cs !! j = Some c ->
  owned cs = owned (take j cs) ++
             match cell_target c with Some l => [l] | None => [] end ++
             owned (drop (S j) cs).
Proof.
  intros Hc. unfold owned.
  rewrite <- (take_drop_middle _ _ _ Hc) at 1.
  rewrite omap_app. simpl. destruct (cell_target c); reflexivity.
Qed.

(** How often [l] occurs in the log after [reverse ls] was put in front
    of it. *)
Lemma times_deleted_freed {V} ls l (m : mem O V) :
  times_deleted l (freed ls m) =
    (length (filter (fun x => x = l) ls) + times_deleted l m)%nat.
Proof.
  unfold times_deleted, freed. simpl.
  rewrite filter_app, length_app, filter_reverse, length_reverse. reflexivity.
Qed.

Lemma occurs_once ls l :
  NoDup ls -> l ∈ ls -> length (filter (fun x => x = l) ls) = 1%nat.
Proof.
  induction 1 as [|x ls Hx Hnd IH]; intros Hl.
  - apply elem_of_nil in Hl. contradiction.
  - rewrite filter_cons. apply elem_of_cons in Hl as [-> | Hl].
    + destruct (decide (x = x)); [| contradiction]. simpl. f_equal.
      apply length_zero_iff_nil. apply list_eq. intros i.
      rewrite lookup_nil. apply eq_None_not_Some. intros [y Hy].
      apply list_elem_of_lookup_2 in Hy. apply list_elem_of_filter in Hy as [-> Hy].
      contradiction.
    + destruct (decide (x = l)) as [-> | Hne]; [contradiction | apply IH, Hl].
Qed.

Lemma occurs_never ls l :
  l ∉ ls -> length (filter (fun x => x = l) ls) = 0%nat.
Proof.
  intros Hl. apply length_zero_iff_nil. apply list_eq. intros i.
  rewrite lookup_nil. apply eq_None_not_Some. intros [y Hy].
  apply list_elem_of_lookup_2 in Hy. apply list_elem_of_filter in Hy as [-> Hy].
  contradiction.
Qed.

(** [vec_traits<T*>::destruct] over a block whose cells are determinate
    and whose non-null cells own distinct live objects: every owned
    object is deleted, in slot order, and nothing else changes. *)
Lemma destruct_run (a : loc) cs n m :
  heap m !! a = Some (Arr cs) -> length cs = N.to_nat n ->
  Forall is_Some cs -> NoDup (owned cs) ->
  (forall l, l ∈ owned cs -> live_obj l m) ->
  destruct (vec_traits := ptr_traits) n (Some a) m = Done (tt, freed (owned cs) m).
Proof.
  intros Ha Hlen Hdet Hnd Hlive. simpl. unfold for_each.
  assert (Hblock : forall l, l ∈ owned cs -> l <> a).
  { intros l Hl ->. destruct (Hlive a Hl) as [o Ho]. rewrite Ha in Ho.
    discriminate. }
  destruct (for_from_rule
    (fun j (_ : unit) mj => mj = freed (owned (take j cs)) m)
    (ptr_destruct_at (Some a)) (N.to_nat n) 0%nat tt m)
    as ([] & m' & Hrun & ->).
  - destruct m; reflexivity.
  - intros j [] mj Hj ->.
    destruct (lookup_lt_is_Some_2 cs j ltac:(lia)) as [c Hc].
    pose proof (owned_split cs j c Hc) as Hsplit.
    pose proof (owned_take_S cs j c Hc) as Htake.
    assert (Hsub : forall l, l ∈ owned (take j cs) -> l ∈ owned cs).
    { intros l Hl. rewrite Hsplit. apply elem_of_app. left. exact Hl. }
    assert (Hsrc : heap (freed (owned (take j cs)) m) !! a = Some (Arr cs)).
    { simpl. rewrite lookup_delete_all_notin; [exact Ha |].
      intros Hin. exact (Hblock a (Hsub a Hin) eq_refl). }
    destruct c as [p|];
      [| exfalso; eapply Forall_lookup_1 in Hdet; [| exact Hc];
         destruct Hdet as [? Hd]; discriminate Hd].
    unfold ptr_destruct_at. step (load_Done a cs j p _ Hsrc Hc).
    destruct p as [l|]; simpl in Htake, Hsplit.
    + exists tt. eexists. split; [| rewrite Htake; apply freed_snoc].
      assert (Hl : l ∈ owned cs).
      { rewrite Hsplit. apply elem_of_app. right. apply elem_of_cons. left.
        reflexivity. }
      assert (Hfresh : l ∉ owned (take j cs)).
      { rewrite Hsplit in Hnd. apply NoDup_app in Hnd as (_ & Hdisj & _).
        intros Hin. apply (Hdisj l Hin). apply elem_of_cons. left. reflexivity. }
      destruct (Hlive l Hl) as [o Ho].
      assert (Hlk : heap (freed (owned (take j cs)) m) !! l = Some (Obj o))
        by (simpl; rewrite lookup_delete_all_notin by exact Hfresh; exact Ho).
      exact (delete_obj_Done l o _ Hlk).
    + exists tt. eexists. split; [reflexivity |].
      rewrite Htake, app_nil_r. reflexivity.
  - rewrite Hrun. simpl. rewrite take_ge by lia. reflexivity.
Qed.

Lemma owned_nulls k : owned (replicate k (Some nullptr)) = [].
Proof. induction k as [|k IH]; [reflexivity | exact IH]. Qed.

Lemma destroy_null_block (v : vec) m :
  data_ v = nullptr -> Vec.destroy (T:=ptr_traits) v m = Done (tt, m).
Proof. unfold Vec.destroy. intros ->. reflexivity. Qed.

(** [~vec()] of a pointer vector: the element destructors, then the
    block. *)
Lemma destroy_run (v : vec) (a : loc) cs m :
  data_ v = Some a ->
  heap m !! a = Some (Arr cs) -> length cs = N.to_nat (size_ v) ->
  Forall is_Some cs -> NoDup (owned cs) ->
  (forall l, l ∈ owned cs -> live_obj l m) ->
  Vec.destroy (T:=ptr_traits) v m =
    Done (tt, set_heap (delete a (delete_all (owned cs) (heap m)))
                       (freed (owned cs) m)).
Proof.
  intros Hv Ha Hlen Hdet Hnd Hlive. unfold Vec.destroy. rewrite Hv.
  cbn [nonnull].
  step (destruct_run a cs (size_ v) m Ha Hlen Hdet Hnd Hlive).
  unfold delete_array.
  assert (Hblock : heap (freed (owned cs) m) !! a = Some (Arr cs)).
  { simpl. rewrite lookup_delete_all_notin; [exact Ha |].
    intros Hin. destruct (Hlive a Hin) as [o Ho]. rewrite Ha in Ho.
    discriminate. }
  rewrite Hblock. reflexivity.
Qed.

(** Property X1. Destroying a pointer vector whose slots are null or own
    distinct live objects runs to completion; it deletes every owned
    object exactly once, in slot order, frees the block and leaves every
    other address and its deletion count as they were. *)
Theorem destroy_deletes_each_once (v : vec) (a : loc) cs m :
  data_ v = Some a ->
  heap m !! a = Some (Arr cs) -> length cs = N.to_nat (size_ v) ->
  Forall is_Some cs -> NoDup (owned cs) ->
  (forall l, l ∈ owned cs -> live_obj l m) ->
  exists m',
    Vec.destroy (T:=ptr_traits) v m = Done (tt, m') /\
    deleted m' = reverse (owned cs) ++ deleted m /\
    oracle m' = oracle m /\
    heap m' !! a = None /\
    (forall l, l ∈ owned cs ->
       heap m' !! l = None /\ times_deleted l m' = S (times_deleted l m)) /\
    (forall x, x <> a -> x ∉ owned cs ->
       heap m' !! x = heap m !! x /\ times_deleted x m' = times_deleted x m).
Proof.
  intros Hv Ha Hlen Hdet Hnd Hlive.
  eexists. split; [apply (destroy_run v a cs m); assumption |].
  split; [reflexivity |]. split; [reflexivity |].
  split; [simpl; apply lookup_delete_eq |]. split.
  - intros l Hl. split.
    + simpl. destruct (decide (a = l)) as [-> | Hne]; [apply lookup_delete_eq |].
      rewrite lookup_delete_ne by exact Hne. apply lookup_delete_all_in, Hl.
    + change (times_deleted l (freed (owned cs) m) = S (times_deleted l m)).
      rewrite times_deleted_freed, (occurs_once _ _ Hnd Hl). reflexivity.
  - intros x Hxa Hx. split.
    + simpl. rewrite lookup_delete_ne by congruence.
      apply lookup_delete_all_notin, Hx.
    + change (times_deleted x (freed (owned cs) m) = times_deleted x m).
      rewrite times_deleted_freed, (occurs_never _ _ Hx). reflexivity.
Qed.

(** Property X2. [make_uninitialized(n)] followed by the destructor
    gives the heap and the deletion log back as they were: the block is
    freed and no object is deleted. *)
Theorem make_uninitialized_then_destroy cfg n m :
  n = 0%N \/ ((n < SIZE_MAX cfg)%N /\ granted m) ->
  exists m',
    (v <- Vec.make_uninitialized (T:=ptr_traits) cfg n ;;
     Vec.destroy (T:=ptr_traits) v) m = Done (tt, m') /\
    heap m' = heap m /\ deleted m' = deleted m.
Proof.
  intros [-> | [Hn Hg]].
  { exists m. step (make_uninitialized_zero_ptr cfg m).
    rewrite destroy_null_block by reflexivity. auto. }
  destruct (N.eq_dec n 0%N) as [-> | Hn0].
  { exists m. step (make_uninitialized_zero_ptr cfg m).
    rewrite destroy_null_block by reflexivity. auto. }
  step (make_uninitialized_ptr cfg n m Hn0 Hn Hg).
  set (a := fresh (dom (heap m))).
  assert (Hfresh : heap m !! a = None) by (apply not_elem_of_dom, is_fresh).
  eexists. split.
  - apply (destroy_run _ a (replicate (N.to_nat n) (Some nullptr))).
    + reflexivity.
    + simpl. apply lookup_insert_eq.
    + simpl. apply length_replicate.
    + apply Forall_replicate. eauto.
    + rewrite owned_nulls. constructor.
    + rewrite owned_nulls. intros l Hl. apply elem_of_nil in Hl. contradiction.
  - rewrite owned_nulls. simpl. split.
    + rewrite delete_insert_eq. apply delete_id, Hfresh.
    + clear. destruct m as [h d [|b o]]; reflexivity.
Qed.

(** Property X3. Move construction of a pointer vector that satisfies
    the invariant gives a destination equal to the source and leaves the
    source with an empty block. Destroying the moved-from source then
    changes nothing, and destroying both, in either order, deletes every
    owned object exactly once. *)
Theorem moved_vec_destroyed_once cfg (v : vec) (a : loc) cs m :
  vec_inv cfg v = true ->
  data_ v = Some a ->
  heap m !! a = Some (Arr cs) -> length cs = N.to_nat (size_ v) ->
  Forall is_Some cs -> NoDup (owned cs) ->
  (forall l, l ∈ owned cs -> live_obj l m) ->
  let src := MkVec (size_ v) nullptr in
  let m' := set_heap (delete a (delete_all (owned cs) (heap m)))
                     (freed (owned cs) m) in
  Vec.move_from cfg v = Done (v, src) /\
  Vec.destroy (T:=ptr_traits) src m = Done (tt, m) /\
  (Vec.destroy (T:=ptr_traits) src ;; Vec.destroy (T:=ptr_traits) v) m
    = Done (tt, m') /\
  (Vec.destroy (T:=ptr_traits) v ;; Vec.destroy (T:=ptr_traits) src) m
    = Done (tt, m') /\
  (forall l, l ∈ owned cs -> times_deleted l m' = S (times_deleted l m)).
Proof.
  intros Hinv Hv Ha Hlen Hdet Hnd Hlive src m'.
  pose proof (destroy_run v a cs m Hv Ha Hlen Hdet Hnd Hlive) as Hrun.
  assert (Hsrc : forall m0, Vec.destroy (T:=ptr_traits) src m0 = Done (tt, m0))
    by (intros m0; apply destroy_null_block; reflexivity).
  split; [| split; [apply Hsrc | split; [| split]]].
  - unfold Vec.move_from. destruct v as [n d]. simpl in *.
    rewrite (init_Done cfg n d Hinv). reflexivity.
  - step (Hsrc m). exact Hrun.
  - step Hrun. apply Hsrc.
  - intros l Hl.
    change (times_deleted l (freed (owned cs) m) = S (times_deleted l m)).
    rewrite times_deleted_freed, (occurs_once _ _ Hnd Hl). reflexivity.
Qed.

(** Move assignment into a pointer vector that holds a block: the
    block is freed with [delete[]]; no element destructor runs. *)
Lemma assign_run (this that : vec) (a : loc) cs m :
  data_ this = Some a -> heap m !! a = Some (Arr cs) ->
  Vec.assign this that m =
    Done ((that, MkVec (size_ that) nullptr), set_heap (delete a (heap m)) m).
Proof.
  intros Hthis Ha.
  unfold Vec.assign, Vec.reset, bind, delete_array. rewrite Hthis, Ha.
  destruct that; reflexivity.
Qed.

(** Property X4. Move assignment [this = std::move(that)] over a pointer
    vector that holds a block frees that block without running the
    element destructors. The objects [this] owned are not deleted by the
    assignment, nor by destroying both vectors afterwards: they stay
    live with no vector left to delete them, while the objects of [that]
    are deleted. *)
Theorem assign_leaks_overwritten (this that : vec) (a b : loc) csa csb m :
  data_ this = Some a -> heap m !! a = Some (Arr csa) ->
  data_ that = Some b -> heap m !! b = Some (Arr csb) -> a <> b ->
  length csb = N.to_nat (size_ that) ->
  Forall is_Some csb -> NoDup (owned csb) ->
  (forall l, l ∈ owned csb -> live_obj l m) ->
  (forall l, l ∈ owned csa -> live_obj l m /\ l ∉ owned csb) ->
  exists m',
    (r <- Vec.assign this that ;;
     Vec.destroy (T:=ptr_traits) (snd r) ;;
     Vec.destroy (T:=ptr_traits) (fst r)) m = Done (tt, m') /\
    heap m' !! a = None /\ heap m' !! b = None /\
    (forall l, l ∈ owned csb -> heap m' !! l = None) /\
    (forall l, l ∈ owned csa ->
       live_obj l m' /\ times_deleted l m' = times_deleted l m).
Proof.
  intros Hthis Ha Hthat Hb Hab Hlen Hdet Hnd Hliveb Hlivea.
  step (assign_run this that a csa m Hthis Ha). cbn [fst snd].
  set (m1 := set_heap (delete a (heap m)) m).
  step (destroy_null_block (MkVec (size_ that) nullptr) m1 eq_refl).
  assert (Hb1 : heap m1 !! b = Some (Arr csb))
    by (simpl; rewrite lookup_delete_ne by exact Hab; exact Hb).
  assert (Hlive1 : forall l, l ∈ owned csb -> live_obj l m1).
  { intros l Hl. destruct (Hliveb l Hl) as [o Ho]. exists o. simpl.
    rewrite lookup_delete_ne; [exact Ho |].
    intros ->. rewrite Ha in Ho. discriminate. }
  eexists. split; [apply (destroy_run that b csb m1); assumption |].
  split; [| split; [simpl; apply lookup_delete_eq | split]].
  - simpl. rewrite lookup_delete_ne by congruence.
    destruct (decide (a ∈ owned csb)) as [Hin | Hnin].
    + apply lookup_delete_all_in, Hin.
    + rewrite lookup_delete_all_notin by exact Hnin. apply lookup_delete_eq.
  - intros l Hl. simpl.
    destruct (decide (b = l)) as [-> | Hne]; [apply lookup_delete_eq |].
    rewrite lookup_delete_ne by exact Hne. apply lookup_delete_all_in, Hl.
  - intros l Hl. destruct (Hlivea l Hl) as [[o Ho] Hnin]. split.
    + exists o. simpl.
      rewrite lookup_delete_ne by (intros ->; rewrite Hb in Ho; discriminate).
      rewrite lookup_delete_all_notin by exact Hnin.
      rewrite lookup_delete_ne by (intros ->; rewrite Ha in Ho; discriminate).
      exact Ho.
    + change (times_deleted l (freed (owned csb) m1) = times_deleted l m).
      rewrite times_deleted_freed, (occurs_never _ _ Hnin). reflexivity.
Qed.
End Destroy.

(** * [make] *)

Section Make.
Context {O : Type}.

Lemma ptr_move_at_Done (a : loc) cs j (p : ptr) (init : list ptr) (m : mem O ptr) :
  heap m !! a = Some (Arr cs) -> (j < length cs)%nat -> init !! j = Some p ->
  ptr_move_at (Some a) j init m =
    Done (<[j := nullptr]> init,
          set_heap (<[a := Arr (<[j := Some p]> cs)]> (heap m)) m).
Proof.
  intros Ha Hj Hp. unfold ptr_move_at. rewrite Hp.
  step (store_Done a cs j p m Ha Hj). reflexivity.
Qed.

(** [vec_traits<T*>::move]: every handle of [init] goes to its slot and
    [init] is left released. *)
Lemma move_ptr_run (a : loc) cs0 n (init : list ptr) (m : mem O ptr) :
  heap m !! a = Some (Arr cs0) -> length cs0 = N.to_nat n ->
  (N.to_nat n <= length init)%nat ->
  move (vec_traits := ptr_traits) n (Some a) init m =
    Done (replicate (N.to_nat n) nullptr ++ drop (N.to_nat n) init,
          set_heap (<[a := Arr (Some <$> take (N.to_nat n) init)]> (heap m)) m).
Proof.
  intros Ha Hlen Hinit. simpl. unfold for_each.
  destruct (for_from_rule
    (fun j (initj : list ptr) mj =>
       length initj = length init /\
       (forall t, (t < j)%nat -> initj !! t = Some nullptr) /\
       (forall t, (j <= t)%nat -> initj !! t = init !! t) /\
       exists csj : list (option ptr),
         mj = set_heap (<[a := Arr csj]> (heap m)) m /\
         length csj = N.to_nat n /\
         forall t, (t < j)%nat -> csj !! t = Some <$> init !! t)
    (ptr_move_at (Some a)) (N.to_nat n) 0%nat init m)
    as (init' & m' & Hrun & Hl' & Hnull & Hrest & cs' & -> & Hlc & Hcs).
  - split; [reflexivity |]. split; [intros t Ht; lia |].
    split; [reflexivity |]. exists cs0.
    split; [| split; [exact Hlen | intros t Ht; lia]].
    rewrite insert_id by exact Ha. symmetry. apply set_heap_id.
  - intros j initj mj Hj (Hlj & Hnj & Hrj & csj & -> & Hlcj & Hcj).
    destruct (lookup_lt_is_Some_2 init j ltac:(lia)) as [p Hp].
    assert (Hpj : initj !! j = Some p) by (rewrite Hrj by lia; exact Hp).
    assert (Hblock : heap (set_heap (<[a := Arr csj]> (heap m)) m) !! a
                     = Some (Arr csj)) by (simpl; apply lookup_insert_eq).
    eexists _, _. split.
    { apply (ptr_move_at_Done a csj j p initj _ Hblock); [lia | exact Hpj]. }
    split; [rewrite length_insert; exact Hlj |].
    split.
    { intros t Ht. destruct (decide (t = j)) as [Heq | Hne]; [subst t |].
      - apply list_lookup_insert_eq. lia.
      - rewrite list_lookup_insert_ne by congruence. apply Hnj. lia. }
    split.
    { intros t Ht. rewrite list_lookup_insert_ne by lia. apply Hrj. lia. }
    exists (<[j := Some p]> csj).
    split; [unfold set_heap; simpl; rewrite insert_insert_eq; reflexivity |].
    split; [rewrite length_insert; exact Hlcj |].
    intros t Ht. destruct (decide (t = j)) as [Heq | Hne]; [subst t |].
    + rewrite list_lookup_insert_eq by lia. rewrite Hp. reflexivity.
    + rewrite list_lookup_insert_ne by congruence. apply Hcj. lia.
  - rewrite Hrun. simpl in Hnull, Hrest, Hcs.
    assert (Hinit' : init' = replicate (N.to_nat n) nullptr ++ drop (N.to_nat n) init).
    { apply list_eq. intros t.
      destruct (decide (t < N.to_nat n)%nat) as [Ht | Ht].
      - rewrite Hnull by exact Ht.
        rewrite lookup_app_l by (rewrite length_replicate; lia).
        symmetry. apply lookup_replicate_2. exact Ht.
      - rewrite Hrest by lia.
        rewrite lookup_app_r by (rewrite length_replicate; lia).
        rewrite length_replicate, lookup_drop. f_equal. lia. }
    assert (Hcs' : cs' = Some <$> take (N.to_nat n) init).
    { apply list_eq. intros t. rewrite list_lookup_fmap.
      destruct (decide (t < N.to_nat n)%nat) as [Ht | Ht].
      - rewrite Hcs by exact Ht. rewrite lookup_take_lt by exact Ht. reflexivity.
      - rewrite lookup_ge_None_2 by lia.
        rewrite lookup_ge_None_2; [reflexivity |].
        rewrite length_take. lia. }
    rewrite Hinit', Hcs'. reflexivity.
Qed.

Lemma make_ptr_run cfg n (init : list ptr) (m : mem O ptr) :
  n <> 0%N -> (n < SIZE_MAX cfg)%N -> granted m ->
  (N.to_nat n <= length init)%nat ->
  Vec.make (T:=ptr_traits) cfg n init m =
    Done ((MkVec n (Some (fresh (dom (heap m)))),
           replicate (N.to_nat n) nullptr ++ drop (N.to_nat n) init),
          set_heap (<[fresh (dom (heap m)) :=
                        Arr (Some <$> take (N.to_nat n) init)]> (heap m))
                   (snd (request m))).
Proof.
  intros Hn0 Hn Hg Hinit. unfold Vec.make.
  step (alloc_granted (T:=ptr_traits) cfg n m Hn0 Hn Hg).
  rewrite valid_below by exact Hn. simpl data_.
  set (a := fresh (dom (heap m))).
  set (m1 := set_heap _ (snd (request m))).
  assert (Ha : heap m1 !! a = Some (Arr (replicate (N.to_nat n) None)))
    by (simpl; apply lookup_insert_eq).
  step (move_ptr_run a _ n init m1 Ha (length_replicate _ _) Hinit).
  unfold ret, set_heap, m1. simpl. rewrite insert_insert_eq. reflexivity.
Qed.

Lemma make_zero_ptr cfg (init : list ptr) (m : mem O ptr) :
  Vec.make (T:=ptr_traits) cfg 0 init m = Done ((MkVec 0 nullptr, init), m).
Proof.
  unfold Vec.make. step (alloc_zero (T:=ptr_traits) cfg m).
  rewrite valid_empty. reflexivity.
Qed.

(** Property X5. [make(n, init)] for pointer elements, given at least
    [n] handles and a granted allocation: the new vector is valid with
    size [n]; slot [i] reads the handle [init[i]] held before the call;
    the first [n] entries of [init] are left released; the only change
    to the store is the new block, so no object is copied or deleted. *)
Theorem make_takes_handles cfg n (init : list ptr) (m : mem O ptr) :
  n <> 0%N -> (n < SIZE_MAX cfg)%N -> granted m ->
  (N.to_nat n <= length init)%nat ->
  exists v init' m',
    Vec.make (T:=ptr_traits) cfg n init m = Done ((v, init'), m') /\
    Vec.valid cfg v = true /\ Vec.size v = n /\
    (forall i p, (i < n)%N -> init !! N.to_nat i = Some p ->
       proxy_get (Vec.at_ v i) m' = Done (p, m')) /\
    (forall t, (t < N.to_nat n)%nat -> init' !! t = Some nullptr) /\
    (forall t, (N.to_nat n <= t)%nat -> init' !! t = init !! t) /\
    (forall x b, heap m !! x = Some b -> heap m' !! x = Some b) /\
    (forall x, x <> fresh (dom (heap m)) -> heap m' !! x = heap m !! x) /\
    deleted m' = deleted m.
Proof.
  intros Hn0 Hn Hg Hinit.
  assert (Hfresh : heap m !! fresh (dom (heap m)) = None)
    by (apply not_elem_of_dom, is_fresh).
  eexists _, _, _. split; [apply make_ptr_run; assumption |].
  split; [apply valid_below; exact Hn |]. split; [reflexivity |].
  split; [| split; [| split; [| split; [| split]]]].
  - intros i p Hi Hp. unfold proxy_get, Vec.at_. cbn [elem_data elem_index data_].
    eapply load_Done; [simpl; apply lookup_insert_eq |].
    rewrite list_lookup_fmap, lookup_take_lt by lia. rewrite Hp. reflexivity.
  - intros t Ht. rewrite lookup_app_l by (rewrite length_replicate; lia).
    apply lookup_replicate_2. exact Ht.
  - intros t Ht. rewrite lookup_app_r by (rewrite length_replicate; lia).
    rewrite length_replicate, lookup_drop. f_equal. lia.
  - intros x b Hx. simpl. rewrite lookup_insert_ne; [exact Hx |].
    intros Heq. rewrite Heq in Hfresh. rewrite Hfresh in Hx. discriminate.
  - intros x Hx. simpl. apply lookup_insert_ne. congruence.
  - clear. destruct m as [h d [|b o]]; reflexivity.
Qed.

(** Property X6. The variadic [make(args...)] for pointer elements: with
    no argument it returns the valid empty vector and leaves the store
    untouched; with arguments and a granted allocation it returns a
    valid vector whose size is the number of arguments and whose slot
    [i] reads argument [i]. *)
Theorem make_of_args cfg (args : list ptr) (m : mem O ptr) :
  Vec.make_of (T:=ptr_traits) cfg [] m = Done (MkVec 0 nullptr, m) /\
  (args <> [] -> (N.of_nat (length args) < SIZE_MAX cfg)%N -> granted m ->
   exists v m',
     Vec.make_of (T:=ptr_traits) cfg args m = Done (v, m') /\
     Vec.valid cfg v = true /\ Vec.size v = N.of_nat (length args) /\
     (forall i p, args !! N.to_nat i = Some p ->
        proxy_get (Vec.at_ v i) m' = Done (p, m')) /\
     heap m' = <[fresh (dom (heap m)) := Arr (Some <$> args)]> (heap m) /\
     deleted m' = deleted m).
Proof.
  split.
  { unfold Vec.make_of. simpl length. step (make_zero_ptr cfg [] m). reflexivity. }
  intros Hargs Hn Hg.
  assert (Hn0 : N.of_nat (length args) <> 0%N).
  { destruct args; [contradiction | simpl; lia]. }
  assert (Hlen : (N.to_nat (N.of_nat (length args)) <= length args)%nat) by lia.
  eexists _, _. split.
  { unfold Vec.make_of. step (make_ptr_run cfg _ args m Hn0 Hn Hg Hlen).
    reflexivity. }
  split; [apply valid_below; exact Hn |]. split; [reflexivity |].
  rewrite Nat2N.id, firstn_all.
  split; [| split; [reflexivity |]].
  - intros i p Hp. unfold proxy_get, Vec.at_. cbn [elem_data elem_index data_ fst].
    eapply load_Done; [simpl; apply lookup_insert_eq |].
    rewrite list_lookup_fmap, Hp. reflexivity.
  - clear. destruct m as [h d [|b o]]; reflexivity.
Qed.
End Make.

(** * Vectors of values: [vec<Val>] *)

Section MakeVal.
Context {O : Type}.

Lemma reset_default (m : mem O Val) : Val.reset Val.make m = Done (Val.make, m).
Proof. reflexivity. Qed.

(** [data[i].reset(init[i])] on a freshly constructed [Val] element. *)
Lemma val_move_at_Done (a : loc) cs j (that : Val) (init : list Val)
    (m : mem O Val) :
  heap m !! a = Some (Arr cs) -> cs !! j = Some (Some Val.make) ->
  init !! j = Some that ->
  plain_move_at Val.reset_from (Some a) j init m =
    Done (<[j := Val.moved_from that]> init,
          set_heap (<[a := Arr (<[j := Some that]> cs)]> (heap m)) m).
Proof.
  intros Ha Hc Hthat. unfold plain_move_at. rewrite Hthat.
  step (load_Done a cs j Val.make m Ha Hc).
  unfold Val.reset_from. unfold bind at 1. unfold bind at 1.
  rewrite reset_default. unfold ret. cbn [fst snd].
  assert (Hj : (j < length cs)%nat) by (eapply lookup_lt_Some; exact Hc).
  step (store_Done a cs j (MkVal (kind_ that) (impl_ that)) m Ha Hj).
  destruct that; reflexivity.
Qed.

(** [vec_traits<Val>::move] into a freshly allocated block. *)
Lemma move_val_run (a : loc) n (init : list Val) (m : mem O Val) :
  heap m !! a = Some (Arr (replicate (N.to_nat n) (Some Val.make))) ->
  (N.to_nat n <= length init)%nat ->
  move (vec_traits := Val_traits) n (Some a) init m =
    Done ((Val.moved_from <$> take (N.to_nat n) init) ++ drop (N.to_nat n) init,
          set_heap (<[a := Arr (Some <$> take (N.to_nat n) init)]> (heap m)) m).
Proof.
  intros Ha Hinit. simpl. unfold for_each.
  destruct (for_from_rule
    (fun j (initj : list Val) mj =>
       length initj = length init /\
       (forall t, (t < j)%nat -> initj !! t = Val.moved_from <$> init !! t) /\
       (forall t, (j <= t)%nat -> initj !! t = init !! t) /\
       exists csj : list (option Val),
         mj = set_heap (<[a := Arr csj]> (heap m)) m /\
         length csj = N.to_nat n /\
         (forall t, (t < j)%nat -> csj !! t = Some <$> init !! t) /\
         (forall t, (j <= t < N.to_nat n)%nat -> csj !! t = Some (Some Val.make)))
    (plain_move_at Val.reset_from (Some a)) (N.to_nat n) 0%nat init m)
    as (init' & m' & Hrun & Hl' & Hmoved & Hrest & cs' & -> & Hlc & Hcs & _).
  - split; [reflexivity |]. split; [intros t Ht; lia |].
    split; [reflexivity |]. exists (replicate (N.to_nat n) (Some Val.make)).
    split; [| split; [apply length_replicate | split; [intros t Ht; lia |]]].
    + rewrite insert_id by exact Ha. symmetry. apply set_heap_id.
    + intros t Ht. apply lookup_replicate_2. lia.
  - intros j initj mj Hj (Hlj & Hmj & Hrj & csj & -> & Hlcj & Hcj & Hdj).
    destruct (lookup_lt_is_Some_2 init j ltac:(lia)) as [that Hthat].
    assert (Hpj : initj !! j = Some that) by (rewrite Hrj by lia; exact Hthat).
    assert (Hblock : heap (set_heap (<[a := Arr csj]> (heap m)) m) !! a
                     = Some (Arr csj)) by (simpl; apply lookup_insert_eq).
    eexists _, _. split.
    { apply (val_move_at_Done a csj j that initj _ Hblock); [| exact Hpj].
      apply Hdj. lia. }
    split; [rewrite length_insert; exact Hlj |].
    split.
    { intros t Ht. destruct (decide (t = j)) as [Heq | Hne]; [subst t |].
      - rewrite list_lookup_insert_eq by lia. rewrite Hthat. reflexivity.
      - rewrite list_lookup_insert_ne by congruence. apply Hmj. lia. }
    split.
    { intros t Ht. rewrite list_lookup_insert_ne by lia. apply Hrj. lia. }
    exists (<[j := Some that]> csj).
    split; [unfold set_heap; simpl; rewrite insert_insert_eq; reflexivity |].
    split; [rewrite length_insert; exact Hlcj |].
    split.
    + intros t Ht. destruct (decide (t = j)) as [Heq | Hne]; [subst t |].
      * rewrite list_lookup_insert_eq by lia. rewrite Hthat. reflexivity.
      * rewrite list_lookup_insert_ne by congruence. apply Hcj. lia.
    + intros t Ht. rewrite list_lookup_insert_ne by lia. apply Hdj. lia.
  - rewrite Hrun. simpl in Hmoved, Hrest, Hcs.
    assert (Hinit' : init' = (Val.moved_from <$> take (N.to_nat n) init)
                             ++ drop (N.to_nat n) init).
    { apply list_eq. intros t.
      destruct (decide (t < N.to_nat n)%nat) as [Ht | Ht].
      - rewrite Hmoved by exact Ht.
        rewrite lookup_app_l by (rewrite length_fmap, length_take; lia).
        rewrite list_lookup_fmap, lookup_take_lt by exact Ht. reflexivity.
      - rewrite Hrest by lia.
        rewrite lookup_app_r by (rewrite length_fmap, length_take; lia).
        rewrite length_fmap, length_take, lookup_drop. f_equal. lia. }
    assert (Hcs' : cs' = Some <$> take (N.to_nat n) init).
    { apply list_eq. intros t. rewrite list_lookup_fmap.
      destruct (decide (t < N.to_nat n)%nat) as [Ht | Ht].
      - rewrite Hcs by exact Ht. rewrite lookup_take_lt by exact Ht. reflexivity.
      - rewrite lookup_ge_None_2 by lia.
        rewrite lookup_ge_None_2; [reflexivity |].
        rewrite length_take. lia. }
    rewrite Hinit', Hcs'. reflexivity.
Qed.

(** Property X7. [vec<Val>::make(n, init)], which the variadic [make]
    and through it [Func::call(vals...)] end in, given at least [n]
    values and a granted allocation: element [i] of the new block is
    [init[i]]; the first [n] entries of [init] are left moved-from, a
    reference entry with a null handle and a numeric entry unchanged;
    the store changes by the new block only, and nothing is deleted. *)
Theorem make_moves_values cfg n (init : list Val) (m : mem O Val) :
  n <> 0%N -> (n < SIZE_MAX cfg)%N -> granted m ->
  (N.to_nat n <= length init)%nat ->
  exists m',
    Vec.make (T:=Val_traits) cfg n init m =
      Done ((MkVec n (Some (fresh (dom (heap m)))),
             (Val.moved_from <$> take (N.to_nat n) init)
               ++ drop (N.to_nat n) init), m') /\
    heap m' = <[fresh (dom (heap m)) := Arr (Some <$> take (N.to_nat n) init)]>
                (heap m) /\
    deleted m' = deleted m /\
    (forall i that, (i < N.to_nat n)%nat -> init !! i = Some that ->
       load (Some (fresh (dom (heap m)))) i m' = Done (that, m') /\
       (is_ref (kind_ that) = true ->
          Val.moved_from that = MkVal (kind_ that) (impl_ref nullptr)) /\
       (is_ref (kind_ that) = false -> Val.moved_from that = that)).
Proof.
  intros Hn0 Hn Hg Hinit.
  eexists. split.
  { unfold Vec.make.
    step (alloc_granted (T:=Val_traits) cfg n m Hn0 Hn Hg).
    rewrite valid_below by exact Hn. simpl data_.
    set (a := fresh (dom (heap m))).
    set (m1 := set_heap _ (snd (request m))).
    assert (Ha : heap m1 !! a =
                 Some (Arr (replicate (N.to_nat n) (Some Val.make))))
      by (simpl; apply lookup_insert_eq).
    step (move_val_run a n init m1 Ha Hinit).
    unfold ret, set_heap, m1. simpl. rewrite insert_insert_eq. reflexivity. }
  split; [reflexivity |]. split.
  - clear. destruct m as [h d [|b o]]; reflexivity.
  - intros i that Hi Hthat. split; [| split].
    + eapply load_Done; [simpl; apply lookup_insert_eq |].
      rewrite list_lookup_fmap, lookup_take_lt by exact Hi. rewrite Hthat.
      reflexivity.
    + intros Hk. unfold Val.moved_from. rewrite Hk. reflexivity.
    + intros Hk. unfold Val.moved_from. rewrite Hk. reflexivity.
Qed.
End MakeVal.

(** * Destroying and assigning vectors of values *)

Section DestroyVal.
Context {O : Type}.
Implicit Types (m : mem O Val) (v : Val) (vs : list Val).

Lemma freed_nil m : freed [] m = m.
Proof. destruct m; reflexivity. Qed.

Lemma freed_cons l ls m :
  freed ls {| heap := delete l (heap m); deleted := l :: deleted m;
              oracle := oracle m |} = freed (l :: ls) m.
Proof.
  unfold freed. simpl. rewrite reverse_cons, <- app_assoc. reflexivity.
Qed.

Lemma NoDup_reversed (ls : list loc) : NoDup ls -> NoDup (reverse ls).
Proof. intros Hnd. rewrite reverse_Permutation. exact Hnd. Qed.

Lemma val_owned_cons v vs :
  val_owned (v :: vs) =
    match val_target v with Some l => l :: val_owned vs | None => val_owned vs end.
Proof. reflexivity. Qed.

Lemma val_owned_reverse vs : val_owned (reverse vs) = reverse (val_owned vs).
Proof.
  unfold val_owned. induction vs as [|v vs IH]; [reflexivity |].
  rewrite reverse_cons, omap_app, IH. simpl.
  destruct (val_target v); [rewrite reverse_cons | rewrite app_nil_r]; reflexivity.
Qed.

Lemma val_target_owns v l : val_target v = Some l -> owns v l.
Proof.
  unfold val_target, owns. destruct (is_ref (kind_ v)); [| discriminate].
  destruct (impl_ v); try discriminate. intros ->. split; reflexivity.
Qed.

(** [~Val] on a value that owns nothing changes nothing. *)
Lemma destroy_no_target v m :
  Val_wf v = true -> val_target v = None -> Val.destroy v m = Done (tt, m).
Proof.
  intros Hwf Ht. destruct (is_ref (kind_ v)) eqn:Hk.
  - destruct (wf_ref_payload v Hwf Hk) as [r Hr].
    unfold val_target in Ht. rewrite Hk, Hr in Ht. subst r.
    apply destroy_null; assumption.
  - unfold Val.destroy. step (reset_num v m Hk). reflexivity.
Qed.

(** The element destructors over well-formed values that own distinct
    live objects: every owned object is deleted, in the order of the
    run. *)
Lemma destroy_cells_run vs m :
  Forall (fun v => Val_wf v = true) vs -> NoDup (val_owned vs) ->
  (forall l, l ∈ val_owned vs -> live_obj l m) ->
  destroy_cells Val.destroy (Some <$> vs) m = Done (tt, freed (val_owned vs) m).
Proof.
  revert m. induction vs as [|v vs IH]; intros m Hwf Hnd Hlive.
  - rewrite freed_nil. reflexivity.
  - apply Forall_cons in Hwf as [Hv Hwf]. rewrite val_owned_cons in Hnd, Hlive.
    rewrite val_owned_cons. cbn [fmap list_fmap destroy_cells].
    destruct (val_target v) as [l|] eqn:Ht.
    + apply NoDup_cons in Hnd as [Hl Hnd].
      assert (Hlv : live_obj l m) by (apply Hlive, elem_of_cons; left; reflexivity).
      step (destroy_owner v l m (val_target_owns v l Ht) Hlv).
      rewrite <- freed_cons. apply IH; [exact Hwf | exact Hnd |].
      intros l' Hl'. destruct (Hlive l') as [o Ho].
      { apply elem_of_cons. right. exact Hl'. }
      exists o. simpl. rewrite lookup_delete_ne; [exact Ho |].
      intros ->. contradiction.
    + step (destroy_no_target v m Hv Ht). apply IH; assumption.
Qed.

(** [delete[]] of a block of values: [~Val] on every element, the last
    first, then the block. *)
Lemma delete_array_val_run (a : loc) vs m :
  heap m !! a = Some (Arr (Some <$> vs)) ->
  Forall (fun v => Val_wf v = true) vs -> NoDup (val_owned vs) ->
  (forall l, l ∈ val_owned vs -> live_obj l m) ->
  delete_array (Some Val.destroy) (Some a) m =
    Done (tt, set_heap (delete a (delete_all (reverse (val_owned vs)) (heap m)))
                       (freed (reverse (val_owned vs)) m)).
Proof.
  intros Ha Hwf Hnd Hlive. unfold delete_array. rewrite Ha.
  rewrite <- fmap_reverse, <- val_owned_reverse.
  assert (Hrun : destroy_cells Val.destroy (Some <$> reverse vs) m
                 = Done (tt, freed (val_owned (reverse vs)) m)).
  { apply destroy_cells_run.
    - apply Forall_reverse. exact Hwf.
    - rewrite val_owned_reverse. apply NoDup_reversed. exact Hnd.
    - intros l Hl. apply Hlive. rewrite val_owned_reverse in Hl.
      rewrite elem_of_reverse in Hl. exact Hl. }
  step Hrun. reflexivity.
Qed.

(** The store after [delete[]] of the block at [a] whose values own the
    distinct live objects [ls]. *)
Lemma deleted_block_facts (a : loc) (ls : list loc) cs m :
  heap m !! a = Some (Arr cs) -> NoDup ls ->
  (forall l, l ∈ ls -> live_obj l m) ->
  let m' := set_heap (delete a (delete_all (reverse ls) (heap m)))
                     (freed (reverse ls) m) in
  deleted m' = ls ++ deleted m /\
  oracle m' = oracle m /\
  heap m' !! a = None /\
  (forall l, l ∈ ls ->
     heap m' !! l = None /\ times_deleted l m' = S (times_deleted l m)) /\
  (forall l, l <> a -> l ∉ ls ->
     heap m' !! l = heap m !! l /\ times_deleted l m' = times_deleted l m).
Proof.
  intros Ha Hnd Hlive m'.
  assert (Hblock : forall l, l ∈ ls -> l <> a).
  { intros l Hl ->. destruct (Hlive a Hl) as [o Ho]. rewrite Ha in Ho.
    discriminate. }
  assert (Htimes : forall l, times_deleted l m' =
            (length (filter (fun x => x = l) (reverse ls)) + times_deleted l m)%nat).
  { intros l. exact (times_deleted_freed (reverse ls) l m). }
  split; [simpl; rewrite reverse_involutive; reflexivity |].
  split; [reflexivity |].
  split; [simpl; apply lookup_delete_eq |].
  split.
  - intros l Hl. split.
    + simpl. rewrite lookup_delete_ne by (intros Heq; exact (Hblock l Hl (eq_sym Heq))).
      apply lookup_delete_all_in. apply elem_of_reverse. exact Hl.
    + rewrite Htimes, (occurs_once (reverse ls) l).
      * reflexivity.
      * apply NoDup_reversed. exact Hnd.
      * apply elem_of_reverse. exact Hl.
  - intros l Hne Hl. split.
    + simpl. rewrite lookup_delete_ne by congruence.
      apply lookup_delete_all_notin. rewrite elem_of_reverse. exact Hl.
    + rewrite Htimes, (occurs_never (reverse ls) l).
      * reflexivity.
      * rewrite elem_of_reverse. exact Hl.
Qed.

(** Property X23. Destroying a vector of values whose elements are
    well-formed and own distinct live objects runs to completion:
    [vec_traits<Val>::destruct] does nothing, and [delete[]] runs [~Val]
    on every element, the last first, so that every owned object is
    deleted exactly once; the block is freed and every other address and
    its deletion count stay as they were. *)
Theorem destroy_val_vector (w : vec) (a : loc) vs m :
  data_ w = Some a ->
  heap m !! a = Some (Arr (Some <$> vs)) ->
  Forall (fun v => Val_wf v = true) vs -> NoDup (val_owned vs) ->
  (forall l, l ∈ val_owned vs -> live_obj l m) ->
  exists m',
    Vec.destroy (T:=Val_traits) w m = Done (tt, m') /\
    deleted m' = val_owned vs ++ deleted m /\
    oracle m' = oracle m /\
    heap m' !! a = None /\
    (forall l, l ∈ val_owned vs ->
       heap m' !! l = None /\ times_deleted l m' = S (times_deleted l m)) /\
    (forall l, l <> a -> l ∉ val_owned vs ->
       heap m' !! l = heap m !! l /\ times_deleted l m' = times_deleted l m).
Proof.
  intros Hw Ha Hwf Hnd Hlive. eexists. split.
  - unfold Vec.destroy. rewrite Hw. cbn [nonnull destruct Val_traits elem_destroy].
    unfold bind at 1. cbn [ret].
    exact (delete_array_val_run a vs m Ha Hwf Hnd Hlive).
  - exact (deleted_block_facts a (val_owned vs) _ m Ha Hnd Hlive).
Qed.

(** Property X24. Move assignment to a vector of values whose elements
    are well-formed and own distinct live objects deletes every object
    the overwritten elements own exactly once and frees their block:
    [unique_ptr::reset] runs [delete[]], which runs [~Val].  The
    destination takes the source's size and block, and the source keeps
    its size over no block. *)
Theorem assign_val_vector (this that : vec) (a : loc) vs m :
  data_ this = Some a ->
  heap m !! a = Some (Arr (Some <$> vs)) ->
  Forall (fun v => Val_wf v = true) vs -> NoDup (val_owned vs) ->
  (forall l, l ∈ val_owned vs -> live_obj l m) ->
  exists m',
    Vec.assign (T:=Val_traits) this that m =
      Done ((MkVec (size_ that) (data_ that), MkVec (size_ that) nullptr), m') /\
    deleted m' = val_owned vs ++ deleted m /\
    heap m' !! a = None /\
    (forall l, l ∈ val_owned vs ->
       heap m' !! l = None /\ times_deleted l m' = S (times_deleted l m)) /\
    (forall l, l <> a -> l ∉ val_owned vs ->
       heap m' !! l = heap m !! l /\ times_deleted l m' = times_deleted l m).
Proof.
  intros Hthis Ha Hwf Hnd Hlive. eexists. split.
  - unfold Vec.assign, Vec.reset. rewrite Hthis. cbn [Val_traits elem_destroy].
    step (delete_array_val_run a vs m Ha Hwf Hnd Hlive). reflexivity.
  - destruct (deleted_block_facts a (val_owned vs) _ m Ha Hnd Hlive)
      as (Hd & _ & Hg & Hin & Hout).
    split; [exact Hd |]. split; [exact Hg |]. split; [exact Hin | exact Hout].
Qed.
End DestroyVal.

(** * More on [Val] *)

Section ValMore.
Context {O V : Type}.
Implicit Types (m : mem O V) (v : Val) (cfg : build).

(** Property X8. Every public constructor of [Val] yields a well-formed
    value of the matching kind whose accessor gives the argument back,
    in every build; [Val()] and [Val(own<Ref*>&&)] yield kind [ANYREF]. *)
Theorem constructors_round_trip cfg (i j : Z) (x : float32_t) (y : float64_t)
    (r : ptr) :
  (Val_wf (Val.of_i32 i) = true /\ Val.kind (Val.of_i32 i) = I32 /\
   Val.i32 cfg (Val.of_i32 i) = Done i) /\
  (Val_wf (Val.of_i64 j) = true /\ Val.kind (Val.of_i64 j) = I64 /\
   Val.i64 cfg (Val.of_i64 j) = Done j) /\
  (Val_wf (Val.of_f32 x) = true /\ Val.kind (Val.of_f32 x) = F32 /\
   Val.f32 cfg (Val.of_f32 x) = Done x) /\
  (Val_wf (Val.of_f64 y) = true /\ Val.kind (Val.of_f64 y) = F64 /\
   Val.f64 cfg (Val.of_f64 y) = Done y) /\
  (Val_wf (Val.of_ref r) = true /\ Val.kind (Val.of_ref r) = ANYREF /\
   Val.ref cfg (Val.of_ref r) = Done r) /\
  (Val_wf Val.make = true /\ Val.make = Val.of_ref nullptr).
Proof.
  unfold Val.i32, Val.i64, Val.f32, Val.f64, Val.ref, assert. simpl.
  destruct (NDEBUG cfg); repeat split.
Qed.

Lemma moved_from_wf v : Val_wf v = true -> Val_wf (Val.moved_from v) = true.
Proof.
  unfold Val.moved_from, Val_wf. intros Hwf.
  destruct (is_ref (kind_ v)) eqn:Hk; [exact Hk | exact Hwf].
Qed.

Lemma reset_result v m v' m' :
  Val.reset v m = Done (v', m') ->
  v' = v \/ (is_ref (kind_ v) = true /\ v' = MkVal (kind_ v) (impl_ref nullptr)).
Proof.
  unfold Val.reset. destruct (is_ref (kind_ v)) eqn:Hk.
  - destruct (impl_ v) as [| | | |[l|]]; try discriminate.
    + unfold bind, lift, ret. simpl.
      destruct (delete_obj l m) as [[[] m1]| |]; try discriminate.
      intros [= <- _]. right. split; reflexivity.
    + intros [= <- _]. left. reflexivity.
  - intros [= <- _]. left. reflexivity.
Qed.

(** Property X9. The operations of [Val] keep the tag and the class
    invariant: after a move, a [reset], a move assignment, a [copy] or a
    [release_ref] every value involved is well-formed, and none of them
    changes the kind of the value it is called on; a move or copy gives
    the result the kind of its source. *)
Theorem operations_keep_wf cfg v that m :
  Val_wf v = true -> Val_wf that = true ->
  (Val_wf (fst (Val.move v)) = true /\ Val_wf (snd (Val.move v)) = true /\
   kind_ (fst (Val.move v)) = kind_ v /\ kind_ (snd (Val.move v)) = kind_ v) /\
  (forall v' m', Val.reset v m = Done (v', m') ->
     Val_wf v' = true /\ kind_ v' = kind_ v) /\
  (forall r m', Val.assign v that m = Done (r, m') ->
     Val_wf (fst r) = true /\ Val_wf (snd r) = true /\
     kind_ (fst r) = kind_ that /\ kind_ (snd r) = kind_ that) /\
  (forall w m', Val.copy v m = Done (w, m') ->
     Val_wf w = true /\ kind_ w = kind_ v) /\
  (forall p v', Val.release_ref cfg v = Done (p, v') -> v' = v).
Proof.
  intros Hv Hthat.
  assert (Hmk : forall u, kind_ (Val.moved_from u) = kind_ u).
  { intros u. unfold Val.moved_from. destruct (is_ref (kind_ u)); reflexivity. }
  split; [| split; [| split; [| split]]].
  - unfold Val.move. simpl.
    repeat split; [destruct v; exact Hv | apply moved_from_wf, Hv | apply Hmk].
  - intros v' m' Hr. apply reset_result in Hr as [-> | [Hk ->]].
    + split; [exact Hv | reflexivity].
    + split; [exact Hk | reflexivity].
  - intros r m' Hr. unfold Val.assign, Val.reset_from in Hr.
    apply bind_inv in Hr as (u & m1 & _ & Hr). unfold ret in Hr.
    injection Hr as <- _. simpl.
    repeat split; [destruct that; exact Hthat | apply moved_from_wf, Hthat
                  | apply Hmk].
  - intros w m'. unfold Val.copy. destruct (is_ref (kind_ v)) eqn:Hk.
    + destruct (impl_ v) as [| | | |[l|]] eqn:Hu; try discriminate.
      * unfold lift. simpl. unfold bind at 1. unfold bind, ret.
        destruct (obj_copy l m) as [[q m1]| |]; try discriminate.
        intros [= <- _]. split; [exact Hk | reflexivity].
      * intros [= <- _]. split; [| reflexivity].
        unfold Val_wf. simpl. exact Hk.
    + intros [= <- _]. split; [destruct v; exact Hv | reflexivity].
  - intros p v'. unfold Val.release_ref, obind.
    destruct (assert cfg (is_ref (kind_ v))); try discriminate.
    destruct (get_ref (impl_ v)); try discriminate.
    intros [= _ <-]. reflexivity.
Qed.

(** Property X10. [Val::copy()]. A numeric value and a null reference
    are copied as they are, with no effect on the store. For a reference
    to a live object a granted copy yields a value of the same kind that
    owns a new object of equal state at an address not in use before,
    the original being untouched, so that destroying copy and original
    deletes two different objects once each; when the object's [copy()]
    is refused the result is a null reference of the same kind. *)
Theorem copy_val v m :
  (is_ref (kind_ v) = false -> Val.copy v m = Done (v, m)) /\
  (is_ref (kind_ v) = true -> impl_ v = impl_ref nullptr ->
     Val.copy v m = Done (v, m)) /\
  (forall l o, owns v l -> heap m !! l = Some (Obj o) ->
     (granted m ->
        let l' := fresh (dom (heap m)) in
        let w := MkVal (kind_ v) (impl_ref (Some l')) in
        let m' := set_heap (<[l' := Obj o]> (heap m)) (snd (request m)) in
        Val.copy v m = Done (w, m') /\
        l' <> l /\ heap m !! l' = None /\ heap m' !! l = Some (Obj o) /\
        exists mf,
          (Val.destroy w ;; Val.destroy v) m' = Done (tt, mf) /\
          deleted mf = l :: l' :: deleted m /\
          heap mf !! l = None /\ heap mf !! l' = None) /\
     (fst (request m) = false ->
        Val.copy v m = Done (MkVal (kind_ v) (impl_ref nullptr), snd (request m)))).
Proof.
  split; [| split].
  - intros Hk. unfold Val.copy. rewrite Hk. destruct v; reflexivity.
  - intros Hk Hu. unfold Val.copy. rewrite Hk, Hu. destruct v; simpl in *.
    subst. reflexivity.
  - intros l o [Hk Hu] Ho. split.
    + intros Hg l' w m'.
      assert (Hfresh : heap m !! l' = None) by (apply not_elem_of_dom, is_fresh).
      assert (Hne : l' <> l) by (intros Heq; rewrite Heq in Hfresh; congruence).
      assert (Hcopy : Val.copy v m = Done (w, m')).
      { unfold Val.copy. rewrite Hk, Hu. unfold lift. simpl.
        unfold bind at 1. unfold bind, obj_copy. rewrite Ho.
        unfold granted in Hg. pose proof (request_heap m) as Hh.
        destruct (request m) as [ok m1]. simpl in Hg, Hh. subst ok.
        unfold ret, w, m', l'. simpl. rewrite Hh. reflexivity. }
      split; [exact Hcopy |]. split; [exact Hne |]. split; [exact Hfresh |].
      assert (Hl : heap m' !! l = Some (Obj o))
        by (simpl; rewrite lookup_insert_ne by exact Hne; exact Ho).
      split; [exact Hl |].
      assert (Hw : owns w l') by (split; [exact Hk | reflexivity]).
      assert (Hwl : live_obj l' m') by (exists o; simpl; apply lookup_insert_eq).
      eexists. split.
      * step (destroy_owner w l' m' Hw Hwl).
        apply (destroy_owner v l); [split; assumption |].
        exists o. simpl. rewrite lookup_delete_ne by exact Hne.
        rewrite lookup_insert_ne by exact Hne. exact Ho.
      * simpl. split; [| split; [apply lookup_delete_eq |]].
        -- clear. destruct m as [h d [|b o0]]; reflexivity.
        -- rewrite lookup_delete_ne by congruence. apply lookup_delete_eq.
    + intros Hr. unfold Val.copy. rewrite Hk, Hu. unfold lift. simpl.
      unfold bind at 1. unfold bind, obj_copy. rewrite Ho.
      destruct (request m) as [ok m1]. simpl in Hr. subst ok. reflexivity.
Qed.

(** Property X11. [Val::reset()] is idempotent: once a [reset] has
    returned, a second [reset] and the destructor return the same value
    and store, so nothing is deleted twice. *)
Theorem reset_idempotent v m v' m' :
  Val.reset v m = Done (v', m') ->
  Val.reset v' m' = Done (v', m') /\ Val.destroy v' m' = Done (tt, m').
Proof.
  intros Hr.
  assert (Hagain : Val.reset v' m' = Done (v', m')).
  { unfold Val.reset in Hr. destruct (is_ref (kind_ v)) eqn:Hk.
    - destruct (impl_ v) as [| | | |[l|]] eqn:Hu; try discriminate.
      + unfold bind, lift, ret in Hr. simpl in Hr.
        destruct (delete_obj l m) as [[[] m1]| |]; try discriminate.
        injection Hr as <- <-. unfold Val.reset. simpl. rewrite Hk.
        reflexivity.
      + injection Hr as <- <-. unfold Val.reset. rewrite Hk, Hu. reflexivity.
    - injection Hr as <- <-. unfold Val.reset. rewrite Hk. reflexivity. }
  split; [exact Hagain |]. unfold Val.destroy. step Hagain. reflexivity.
Qed.

(** Property X12. Move assignment into a [Val] that owns a live object
    deletes that object exactly once, then takes over tag and payload of
    the source; a numeric source is left as it was. *)
Theorem assign_deletes_old (this that : Val) l m :
  owns this l -> live_obj l m ->
  let m' := {| heap := delete l (heap m); deleted := l :: deleted m;
               oracle := oracle m |} in
  Val.assign this that m = Done ((that, Val.moved_from that), m') /\
  times_deleted l m' = S (times_deleted l m) /\
  heap m' !! l = None /\
  (is_ref (kind_ that) = false -> Val.moved_from that = that).
Proof.
  intros Hown Hlive m'.
  split; [| split; [| split]].
  - unfold Val.assign, Val.reset_from.
    step (reset_owner this l m Hown Hlive). destruct that; reflexivity.
  - destruct m as [h d o]. unfold m'. simpl. rewrite times_deleted_cons.
    destruct (decide (l = l)); [reflexivity | contradiction].
  - simpl. apply lookup_delete_eq.
  - intros Hk. unfold Val.moved_from. rewrite Hk. reflexivity.
Qed.

(** Property X13. [is_num] and [is_ref] split the six kinds in two: the
    four numeric kinds on one side, [ANYREF] and [FUNCREF] on the other. *)
Theorem kinds_partition (k : ValKind) :
  is_num k = negb (is_ref k) /\
  (is_num k = true <-> k = I32 \/ k = I64 \/ k = F32 \/ k = F64) /\
  (is_ref k = true <-> k = ANYREF \/ k = FUNCREF).
Proof.
  destruct k; cbv; intuition congruence.
Qed.
End ValMore.

(** * More on [vec] *)

Section VecMore.
Context {O V : Type}.
Implicit Types (cfg : build) (v : vec).

(** Property X14. [copy()] of the valid empty vector is the valid empty
    vector, for pointer and for plain elements; no allocation is
    requested and the store is unchanged. *)
Theorem copy_empty cfg :
  (forall m : mem O ptr,
     Vec.copy (T:=ptr_traits) cfg (MkVec 0 nullptr) m = Done (MkVec 0 nullptr, m)) /\
  (forall elem_reset dflt (m : mem O V),
     Vec.copy (T:=plain_traits elem_reset dflt) cfg (MkVec 0 nullptr) m
       = Done (MkVec 0 nullptr, m)) /\
  Vec.valid cfg (MkVec 0 nullptr) = true.
Proof.
  split; [| split; [| apply valid_empty]].
  - intros m. unfold Vec.copy. simpl size_.
    step (alloc_zero (T:=ptr_traits) cfg m). rewrite valid_empty. reflexivity.
  - intros er dflt m. unfold Vec.copy. simpl size_.
    step (alloc_zero (T:=plain_traits er dflt) cfg m). rewrite valid_empty.
    reflexivity.
Qed.

(** Property X15. [release()] hands the block out and leaves the vector
    with an empty block and its old size. Adopting the released block
    under the old size gives back the vector that was released, when
    that vector satisfied the invariant; destroying the released-from
    vector changes nothing. *)
Theorem release_adopt_round_trip cfg v (m : mem O ptr) :
  vec_inv cfg v = true ->
  Vec.release v = (Vec.get v, MkVec (Vec.size v) nullptr) /\
  Vec.adopt cfg (Vec.size v) (fst (Vec.release v)) = Done v /\
  Vec.destroy (T:=ptr_traits) (snd (Vec.release v)) m = Done (tt, m).
Proof.
  intros Hinv. split; [reflexivity |]. split.
  - unfold Vec.adopt, Vec.release, Vec.size. simpl. destruct v as [n d].
    apply init_Done, Hinv.
  - reflexivity.
Qed.

Lemma proxy_release_run (a : loc) j cs (old : ptr) (m : mem O ptr) :
  heap m !! a = Some (Arr cs) -> cs !! j = Some (Some old) ->
  proxy_release (Proxy (Some a) j) m =
    Done (old, set_heap (<[a := Arr (<[j := Some nullptr]> cs)]> (heap m)) m).
Proof.
  intros Ha Hj. unfold proxy_release. cbn [elem_data elem_index].
  assert (Hlt : (j < length cs)%nat) by (eapply lookup_lt_Some; exact Hj).
  step (load_Done a cs j old m Ha Hj).
  step (store_Done a cs j nullptr m Ha Hlt). reflexivity.
Qed.

Lemma proxy_reset_run (a : loc) j cs (old val : ptr) (m : mem O ptr) :
  heap m !! a = Some (Arr cs) -> cs !! j = Some (Some old) ->
  (forall l, old = Some l -> live_obj l m) ->
  proxy_reset (Proxy (Some a) j) val m =
    Done (tt, {| heap := <[a := Arr (<[j := Some val]> cs)]>
                           (match old with
                            | Some l => delete l (heap m)
                            | None => heap m
                            end);
                 deleted := match old with
                            | Some l => l :: deleted m
                            | None => deleted m
                            end;
                 oracle := oracle m |}).
Proof.
  intros Ha Hj Hold. unfold proxy_reset. cbn [elem_data elem_index].
  assert (Hlt : (j < length cs)%nat) by (eapply lookup_lt_Some; exact Hj).
  step (load_Done a cs j old m Ha Hj).
  destruct old as [l|].
  - destruct (Hold l eq_refl) as [o Ho].
    assert (Hne : l <> a) by (intros ->; rewrite Ha in Ho; discriminate).
    unfold bind at 1. unfold delete_obj. rewrite Ho.
    erewrite store_Done; [reflexivity | | exact Hlt].
    simpl. rewrite lookup_delete_ne by exact Hne. exact Ha.
  - unfold bind at 1. unfold ret.
    erewrite store_Done; [| exact Ha | exact Hlt].
    destruct m; reflexivity.
Qed.

(** Property X16. Taking the handle out of a slot with [release()] and
    assigning it back through the proxy restores the store exactly; and
    a handle assigned to a slot that holds null or a live object is the
    handle a following [release()] returns, the slot being null
    afterwards. *)
Theorem proxy_release_assign v (a : loc) (i : N) cs (old val : ptr)
    (m : mem O ptr) :
  data_ v = Some a ->
  heap m !! a = Some (Arr cs) -> cs !! N.to_nat i = Some (Some old) ->
  (forall l, old = Some l -> live_obj l m) ->
  (p <- proxy_release (Vec.at_ v i) ;; proxy_assign (Vec.at_ v i) p) m
    = Done (tt, m) /\
  exists m',
    (proxy_assign (Vec.at_ v i) val ;; proxy_release (Vec.at_ v i)) m
      = Done (val, m') /\
    proxy_get (Vec.at_ v i) m' = Done (nullptr, m').
Proof.
  intros Hv Ha Hi Hold. unfold Vec.at_. rewrite Hv.
  assert (Hlt : (N.to_nat i < length cs)%nat) by (eapply lookup_lt_Some; exact Hi).
  split.
  - step (proxy_release_run a _ cs old m Ha Hi).
    set (m1 := set_heap _ m).
    assert (Ha1 : heap m1 !! a = Some (Arr (<[N.to_nat i := Some nullptr]> cs)))
      by (simpl; apply lookup_insert_eq).
    assert (Hi1 : <[N.to_nat i := Some nullptr]> cs !! N.to_nat i
                  = Some (Some nullptr))
      by (apply list_lookup_insert_eq; exact Hlt).
    unfold proxy_assign.
    rewrite (proxy_reset_run a _ _ nullptr old m1 Ha1 Hi1)
      by (intros l Hl; discriminate Hl).
    unfold m1, set_heap. simpl.
    rewrite insert_insert_eq, list_insert_insert_eq.
    rewrite (list_insert_id _ _ _ Hi), (insert_id _ _ _ Ha).
    destruct m; reflexivity.
  - unfold proxy_assign.
    step (proxy_reset_run a _ cs old val m Ha Hi Hold).
    set (m1 := Mem _ _ _).
    assert (Ha1 : heap m1 !! a = Some (Arr (<[N.to_nat i := Some val]> cs)))
      by (simpl; apply lookup_insert_eq).
    assert (Hi1 : <[N.to_nat i := Some val]> cs !! N.to_nat i = Some (Some val))
      by (apply list_lookup_insert_eq; exact Hlt).
    eexists. split; [apply (proxy_release_run a _ _ val m1 Ha1 Hi1) |].
    unfold proxy_get. cbn [elem_data elem_index].
    eapply load_Done; [simpl; apply lookup_insert_eq |].
    apply list_lookup_insert_eq. rewrite length_insert. exact Hlt.
Qed.
End VecMore.

(** * A copy and its source *)

Section CopyDestroy.
Context {O : Type}.
Implicit Types (m : mem O ptr) (cs : list (option ptr)).

Lemma elem_of_owned cs l :
  l ∈ owned cs <-> exists t, cs !! t = Some (Some (Some l)).
Proof.
  unfold owned. rewrite list_elem_of_omap. split.
  - intros (c & Hc & Ht). apply list_elem_of_lookup in Hc as [t Hc].
    exists t. destruct c as [[l0|]|]; simpl in Ht; try discriminate.
    injection Ht as ->. exact Hc.
  - intros [t Ht]. exists (Some (Some l)). split; [| reflexivity].
    eapply list_elem_of_lookup_2. exact Ht.
Qed.

Lemma NoDup_owned cs :
  (forall t1 t2 l1 l2, t1 <> t2 ->
     cs !! t1 = Some (Some (Some l1)) -> cs !! t2 = Some (Some (Some l2)) ->
     l1 <> l2) ->
  NoDup (owned cs).
Proof.
  induction cs as [|c cs IH]; intros Hd; [constructor |].
  assert (Htail : NoDup (owned cs)).
  { apply IH. intros t1 t2 l1 l2 Hne H1 H2.
    apply (Hd (S t1) (S t2)); [congruence | exact H1 | exact H2]. }
  destruct c as [[l|]|]; try exact Htail.
  change (NoDup (l :: owned cs)). constructor; [| exact Htail].
  intros Hin. apply elem_of_owned in Hin as [t Ht].
  exact (Hd 0%nat (S t) l l ltac:(lia) eq_refl Ht eq_refl).
Qed.

(** Property X19. Let every slot of a pointer vector own a live object
    and every allocation be granted. Then [copy()] followed by the
    destructor of the copy runs to completion; everything that was in
    the store before the copy, the source's block and objects included,
    is in it afterwards, and every object deleted meanwhile is one that
    did not exist before the copy. *)
Theorem copy_then_destroy cfg n (a : loc) cs m :
  n <> 0%N -> (n < SIZE_MAX cfg)%N ->
  heap m !! a = Some (Arr cs) -> length cs = N.to_nat n ->
  (forall t, (t < N.to_nat n)%nat ->
     exists l, cs !! t = Some (Some (Some l)) /\ live_obj l m) ->
  (forall k, (k <= N.to_nat n)%nat -> oracle m !! k = Some true) ->
  exists mf ls,
    (w <- Vec.copy (T:=ptr_traits) cfg (MkVec n (Some a)) ;;
     Vec.destroy (T:=ptr_traits) w) m = Done (tt, mf) /\
    (forall x b, heap m !! x = Some b -> heap mf !! x = Some b) /\
    deleted mf = reverse ls ++ deleted m /\
    length ls = N.to_nat n /\ NoDup ls /\
    (forall l, l ∈ ls -> heap m !! l = None /\ heap mf !! l = None).
Proof.
  intros Hn0 Hn Ha Hlen Hcs Hor.
  destruct (copy_ptr cfg n a cs m Hn0 Hn Ha Hlen) as
    (cs' & m' & Hcopy & Ha' & Hlen' & Hdel & Hkeep & Hcells & Hdist).
  { intros t Ht. destruct (Hcs t Ht) as (l & Hl & Hlive).
    exists (Some l). split; [exact Hl |]. intros l0 [= <-]. exact Hlive. }
  { exact Hor. }
  set (a' := fresh (dom (heap m))) in *.
  assert (Hfresh : heap m !! a' = None) by (apply not_elem_of_dom, is_fresh).
  assert (Hcell : forall t, (t < N.to_nat n)%nat ->
            exists l', cs' !! t = Some (Some (Some l')) /\
                       heap m !! l' = None /\ live_obj l' m').
  { intros t Ht. destruct (Hcs t Ht) as (l & Hl & _).
    destruct (Hcells t Ht) as [_ Hobj].
    destruct (Hobj l Hl) as (l' & o & H1 & H2 & _ & H4).
    exists l'. split; [exact H1 |]. split; [exact H2 | exists o; exact H4]. }
  assert (Hown : forall l', l' ∈ owned cs' ->
            heap m !! l' = None /\ live_obj l' m').
  { intros l' Hl'. apply elem_of_owned in Hl' as [t Ht].
    assert (Htn : (t < N.to_nat n)%nat)
      by (rewrite <- Hlen'; eapply lookup_lt_Some; exact Ht).
    destruct (Hcell t Htn) as (l1 & H1 & H2 & H3).
    pose proof (eq_trans (eq_sym Ht) H1) as E. injection E as ->.
    split; assumption. }
  assert (Hdet : Forall is_Some cs').
  { apply Forall_lookup. intros t c Hc.
    assert (Htn : (t < N.to_nat n)%nat)
      by (rewrite <- Hlen'; eapply lookup_lt_Some; exact Hc).
    destruct (Hcell t Htn) as (l1 & H1 & _).
    pose proof (eq_trans (eq_sym Hc) H1) as E. injection E as ->. eauto. }
  assert (Hnd : NoDup (owned cs')) by (apply NoDup_owned, Hdist).
  assert (Hcount : length (owned cs') = N.to_nat n).
  { rewrite <- Hlen'. clear - Hdet Hcell Hlen'.
    assert (Hall : forall t c, cs' !! t = Some c -> exists l, c = Some (Some l)).
    { intros t c Hc.
      assert (Htn : (t < N.to_nat n)%nat)
        by (rewrite <- Hlen'; eapply lookup_lt_Some; exact Hc).
      destruct (Hcell t Htn) as (l1 & H1 & _). exists l1.
      pose proof (eq_trans (eq_sym Hc) H1) as E. injection E as ->.
      reflexivity. }
    clear Hcell Hlen' Hdet. induction cs' as [|c cs' IH]; [reflexivity |].
    destruct (Hall 0%nat c eq_refl) as [l ->]. simpl. f_equal.
    apply IH. intros t c Hc. exact (Hall (S t) c Hc). }
  step Hcopy.
  exists (set_heap (delete a' (delete_all (owned cs') (heap m')))
                   (freed (owned cs') m')), (owned cs').
  split.
  { apply (destroy_run (MkVec n (Some a')) a' cs' m'); try assumption.
    - reflexivity.
    - intros l Hl. apply (Hown l Hl). }
  split.
  { intros x b Hx. simpl.
    rewrite lookup_delete_ne
      by (intros Heq; rewrite <- Heq, Hfresh in Hx; discriminate).
    rewrite lookup_delete_all_notin; [apply Hkeep, Hx |].
    intros Hin. destruct (Hown x Hin) as [Hnone _]. rewrite Hnone in Hx.
    discriminate. }
  split; [simpl; rewrite Hdel; reflexivity |].
  split; [exact Hcount |]. split; [exact Hnd |].
  intros l Hl. split; [apply (Hown l Hl) |].
  simpl. destruct (decide (a' = l)) as [-> | Hne]; [apply lookup_delete_eq |].
  rewrite lookup_delete_ne by exact Hne. apply lookup_delete_all_in, Hl.
Qed.

(** Property X18. [copy()] of a pointer vector whose slots are null or
    own live objects, every allocation being granted ([copy()] of an
    element modelled as in the spec): the copy is a new vector of the
    same size; where the source slot owns an object, the copy's slot
    owns another object, at an address not in use before, with the same
    state; the source slot still reads its own object, nothing is
    deleted, and overwriting the copy's object leaves the original as it
    was. *)
Theorem copy_deep cfg n (a : loc) cs m :
  n <> 0%N -> (n < SIZE_MAX cfg)%N ->
  heap m !! a = Some (Arr cs) -> length cs = N.to_nat n ->
  (forall t, (t < N.to_nat n)%nat ->
     exists p, cs !! t = Some (Some p) /\ forall l, p = Some l -> live_obj l m) ->
  (forall k, (k <= N.to_nat n)%nat -> oracle m !! k = Some true) ->
  let v := MkVec n (Some a) in
  let w := MkVec n (Some (fresh (dom (heap m)))) in
  exists m',
    Vec.copy (T:=ptr_traits) cfg v m = Done (w, m') /\
    Vec.valid cfg w = true /\ Vec.size w = Vec.size v /\
    Vec.get w <> Vec.get v /\
    deleted m' = deleted m /\
    (forall i l o, (i < n)%N ->
       cs !! N.to_nat i = Some (Some (Some l)) -> heap m !! l = Some (Obj o) ->
       proxy_get (Vec.at_ v i) m' = Done (Some l, m') /\
       exists l',
         proxy_get (Vec.at_ w i) m' = Done (Some l', m') /\
         l' <> l /\ heap m !! l' = None /\
         heap m' !! l' = Some (Obj o) /\ heap m' !! l = Some (Obj o) /\
         forall o2, <[l' := Obj o2]> (heap m') !! l = Some (Obj o)).
Proof.
  intros Hn0 Hn Ha Hlen Hcs Hor v w.
  destruct (copy_ptr cfg n a cs m Hn0 Hn Ha Hlen Hcs Hor) as
    (cs' & m' & Hcopy & Ha' & Hlen' & Hdel & Hkeep & Hcells & _).
  assert (Hfresh : heap m !! fresh (dom (heap m)) = None)
    by (apply not_elem_of_dom, is_fresh).
  exists m'. split; [exact Hcopy |].
  split; [apply valid_below; exact Hn |]. split; [reflexivity |].
  split.
  { unfold Vec.get. simpl. intros [= Heq]. rewrite Heq in Hfresh.
    rewrite Hfresh in Ha. discriminate. }
  split; [exact Hdel |].
  intros i l o Hi Hl Ho.
  destruct (Hcells (N.to_nat i) ltac:(lia)) as [_ Hobj].
  destruct (Hobj l Hl) as (l' & o' & H1 & H2 & H3 & H4).
  assert (o' = o) by congruence. subst o'.
  assert (Hne : l' <> l) by (intros ->; congruence).
  split.
  - unfold proxy_get, Vec.at_. cbn [elem_data elem_index data_ v].
    exact (load_Done a cs _ (Some l) m' (Hkeep _ _ Ha) Hl).
  - exists l'. split.
    + unfold proxy_get, Vec.at_. cbn [elem_data elem_index data_ w].
      exact (load_Done _ cs' _ (Some l') m' Ha' H1).
    + split; [exact Hne |]. split; [exact H2 |]. split; [exact H4 |].
      split; [apply Hkeep, Ho |].
      intros o2. rewrite lookup_insert_ne by exact Hne. apply Hkeep, Ho.
Qed.
End CopyDestroy.

Section CopyPlain.
Context {O V : Type}.

(** Property X17. [copy()] of a vector of plain values, the allocation
    being granted: the copy is a new vector of the same size whose
    elements equal the source's; nothing is deleted; and a later write
    to an element of the copy leaves the source as it was. *)
Theorem copy_plain_independent cfg elem_reset dflt n (a : loc) (xs : list V)
    (m : mem O V) :
  n <> 0%N -> (n < SIZE_MAX cfg)%N -> granted m ->
  heap m !! a = Some (Arr (Some <$> xs)) -> length xs = N.to_nat n ->
  let a' := fresh (dom (heap m)) in
  exists m',
    Vec.copy (T:=plain_traits elem_reset dflt) cfg (MkVec n (Some a)) m
      = Done (MkVec n (Some a'), m') /\
    a' <> a /\ deleted m' = deleted m /\
    (forall i x, xs !! i = Some x ->
       load (Some a') i m' = Done (x, m') /\ load (Some a) i m' = Done (x, m')) /\
    (forall i x y, xs !! i = Some x ->
       exists m'',
         store (Some a') i y m' = Done (tt, m'') /\
         load (Some a') i m'' = Done (y, m'') /\
         load (Some a) i m'' = Done (x, m'')).
Proof.
  intros Hn0 Hn Hg Ha Hlen a'.
  assert (Hfresh : heap m !! a' = None) by (apply not_elem_of_dom, is_fresh).
  assert (Hne : a' <> a) by (intros Heq; rewrite Heq in Hfresh; congruence).
  eexists. split; [exact (copy_plain cfg elem_reset dflt n a xs m Hn0 Hn Hg Ha Hlen) |].
  split; [exact Hne |]. split.
  { clear. destruct m as [h d [|b o]]; reflexivity. }
  set (m' := set_heap _ (snd (request m))).
  assert (Hdst : heap m' !! a' = Some (Arr (Some <$> xs)))
    by (simpl; apply lookup_insert_eq).
  assert (Hsrc : heap m' !! a = Some (Arr (Some <$> xs)))
    by (simpl; rewrite lookup_insert_ne by exact Hne; exact Ha).
  assert (Hcell : forall i x, xs !! i = Some x ->
            (Some <$> xs) !! i = Some (Some x))
    by (intros i x Hx; rewrite list_lookup_fmap, Hx; reflexivity).
  split.
  - intros i x Hx. split; eapply load_Done; eauto.
  - intros i x y Hx.
    assert (Hi : (i < length (Some <$> xs))%nat)
      by (eapply lookup_lt_Some; apply Hcell; exact Hx).
    eexists. split; [apply (store_Done a' _ i y m' Hdst Hi) |]. split.
    + eapply load_Done; [simpl; apply lookup_insert_eq |].
      apply list_lookup_insert_eq. exact Hi.
    + eapply load_Done; [| apply Hcell; exact Hx].
      simpl. rewrite lookup_insert_ne by exact Hne.
      rewrite lookup_insert_ne by exact Hne. exact Ha.
Qed.
End CopyPlain.

(** * Life cycle and edges *)

Section Edges.
Context {O : Type}.
Implicit Types (m : mem O ptr) (cfg : build).

Lemma bind_Undefined {V A B} (c : M O V A) (k : A -> M O V B) (m : mem O V) :
  c m = Undefined -> bind c k m = Undefined.
Proof. unfold bind. intros ->. reflexivity. Qed.

(** Property X20. The element proxy checks nothing: through [operator[]]
    of a vector without a block, or with an index at or past the end of
    the block, [get], [reset], [operator=], [release] and [move] are all
    undefined. *)
Theorem proxy_unchecked (v : vec) (i : N) (val : ptr) m :
  data_ v = nullptr \/
  (exists a cs, data_ v = Some a /\ heap m !! a = Some (Arr cs) /\
                (length cs <= N.to_nat i)%nat) ->
  proxy_get (Vec.at_ v i) m = Undefined /\
  proxy_reset (Vec.at_ v i) val m = Undefined /\
  proxy_assign (Vec.at_ v i) val m = Undefined /\
  proxy_release (Vec.at_ v i) m = Undefined /\
  proxy_move (Vec.at_ v i) m = Undefined.
Proof.
  intros Hv.
  assert (Hload : load (data_ v) (N.to_nat i) m = Undefined).
  { destruct Hv as [-> | (a & cs & -> & Ha & Hi)]; [reflexivity |].
    unfold load. rewrite Ha, (lookup_ge_None_2 _ _ Hi). reflexivity. }
  unfold proxy_move, proxy_assign, proxy_get, proxy_reset, proxy_release, Vec.at_.
  cbn [elem_data elem_index].
  repeat split; try exact Hload; apply bind_Undefined; exact Hload.
Qed.

(** Property X21. A pointer vector made from [n] handles that are null
    or own distinct live objects deletes exactly those objects, each
    once, when it is destroyed, and frees its block: the heap afterwards
    is the heap before [make] without the objects handed over. *)
Theorem make_then_destroy cfg n (init : list ptr) m :
  n <> 0%N -> (n < SIZE_MAX cfg)%N -> granted m ->
  (N.to_nat n <= length init)%nat ->
  let ls := owned (Some <$> take (N.to_nat n) init) in
  NoDup ls -> (forall l, l ∈ ls -> live_obj l m) ->
  exists m',
    (r <- Vec.make (T:=ptr_traits) cfg n init ;;
     Vec.destroy (T:=ptr_traits) (fst r)) m = Done (tt, m') /\
    heap m' = delete_all ls (heap m) /\
    deleted m' = reverse ls ++ deleted m /\
    (forall l, l ∈ ls ->
       heap m' !! l = None /\ times_deleted l m' = S (times_deleted l m)).
Proof.
  intros Hn0 Hn Hg Hinit ls Hnd Hlive.
  step (make_ptr_run cfg n init m Hn0 Hn Hg Hinit). cbn [fst].
  set (a := fresh (dom (heap m))).
  assert (Hfresh : heap m !! a = None) by (apply not_elem_of_dom, is_fresh).
  set (m1 := set_heap _ (snd (request m))).
  assert (Hnota : a ∉ ls).
  { intros Hin. destruct (Hlive a Hin) as [o Ho]. rewrite Hfresh in Ho.
    discriminate. }
  assert (Hlive1 : forall l, l ∈ ls -> live_obj l m1).
  { intros l Hl. destruct (Hlive l Hl) as [o Ho]. exists o. simpl.
    rewrite lookup_insert_ne; [exact Ho |]. intros <-. contradiction. }
  eexists. split.
  { apply (destroy_run (MkVec n (Some a)) a (Some <$> take (N.to_nat n) init) m1).
    - reflexivity.
    - simpl. apply lookup_insert_eq.
    - simpl. rewrite length_fmap, length_take. lia.
    - apply Forall_fmap, Forall_true. intros p. simpl. eauto.
    - exact Hnd.
    - exact Hlive1. }
  assert (Hheap : delete a (delete_all ls (heap m1)) = delete_all ls (heap m)).
  { apply map_eq. intros x. destruct (decide (x = a)) as [-> | Hxa].
    - rewrite lookup_delete_eq, lookup_delete_all_notin by exact Hnota.
      symmetry. exact Hfresh.
    - rewrite lookup_delete_ne by congruence.
      destruct (decide (x ∈ ls)) as [Hin | Hnin].
      + rewrite !lookup_delete_all_in by exact Hin. reflexivity.
      + rewrite !lookup_delete_all_notin by exact Hnin. simpl.
        apply lookup_insert_ne. congruence. }
  split; [exact Hheap |]. split.
  { simpl. f_equal. clear. destruct m as [h d [|b o]]; reflexivity. }
  intros l Hl. split.
  - pose proof (lookup_delete_all_in ls l (heap m) Hl) as E.
    rewrite <- Hheap in E. exact E.
  - change (times_deleted l (freed ls m1) = S (times_deleted l m)).
    rewrite times_deleted_freed, (occurs_once _ _ Hnd Hl). f_equal.
    clear. unfold times_deleted. destruct m as [h d [|b o]]; reflexivity.
Qed.

(** Property X22. A moved-from vector of a size other than 0 and the
    sentinel cannot be move-constructed from in a checking build, where
    the constructor's assertion fails, whereas move assignment, which
    asserts nothing, hands the state on; under [NDEBUG] both do. *)
Theorem move_from_moved cfg n (this : vec) m :
  n <> 0%N -> n <> SIZE_MAX cfg -> data_ this = nullptr ->
  Vec.move_from cfg (MkVec n nullptr) =
    (if NDEBUG cfg then Done (MkVec n nullptr, MkVec n nullptr)
     else AssertFail) /\
  Vec.assign this (MkVec n nullptr) m
    = Done ((MkVec n nullptr, MkVec n nullptr), m) /\
  Vec.valid cfg (MkVec n nullptr) = true /\
  vec_inv cfg (MkVec n nullptr) = false.
Proof.
  intros Hn0 Hmax Hthis. split; [| split; [| split]].
  - unfold Vec.move_from, Vec.init, assert, Vec.invalid_size. simpl.
    destruct (NDEBUG cfg); [reflexivity |].
    destruct (N.eqb_spec n 0); [contradiction |].
    destruct (N.eqb_spec n (SIZE_MAX cfg)); [contradiction | reflexivity].
  - unfold Vec.assign, Vec.reset, bind. rewrite Hthis. reflexivity.
  - unfold Vec.valid, Vec.invalid_size. simpl.
    destruct (N.eqb_spec n (SIZE_MAX cfg)); [contradiction | reflexivity].
  - unfold vec_inv. simpl.
    destruct (N.eqb_spec n (SIZE_MAX cfg)); [contradiction |].
    destruct (N.eqb_spec n 0); [contradiction | reflexivity].
Qed.
End Edges.

(** * The further properties at concrete inputs *)

Lemma destroy_deletes_each_once_witness :
  exists m',
    Vec.destroy (T:=ptr_traits) (MkVec 1 (Some 1%positive)) slot_store
      = Done (tt, m') /\
    deleted m' = [2%positive] /\ heap m' !! 2%positive = None.
Proof.
  destruct (destroy_deletes_each_once (MkVec 1 (Some 1%positive)) 1%positive
              [Some (Some 2%positive)] slot_store eq_refl eq_refl eq_refl)
    as (m' & Hrun & Hdel & _ & _ & Hown & _).
  - repeat constructor. eexists. reflexivity.
  - apply NoDup_singleton.
  - intros l Hl. apply list_elem_of_singleton in Hl as ->.
    exists 10%nat. reflexivity.
  - exists m'. split; [exact Hrun |]. split; [exact Hdel |].
    apply (Hown 2%positive). apply list_elem_of_singleton. reflexivity.
Defined.

Lemma make_uninitialized_then_destroy_witness :
  exists m',
    (v <- Vec.make_uninitialized (T:=ptr_traits) checked 2 ;;
     Vec.destroy (T:=ptr_traits) v) (empty_store (O:=nat) [true])
      = Done (tt, m') /\
    heap m' = ∅ /\ deleted m' = [].
Proof.
  apply (make_uninitialized_then_destroy checked 2 (empty_store (O:=nat) [true])).
  right. split; reflexivity.
Defined.

Lemma moved_vec_destroyed_once_witness :
  Vec.move_from checked (MkVec 1 (Some 1%positive))
    = Done (MkVec 1 (Some 1%positive), MkVec 1 nullptr) /\
  Vec.destroy (T:=ptr_traits) (MkVec 1 nullptr) slot_store = Done (tt, slot_store).
Proof.
  assert (Hlive : forall l, l ∈ owned [Some (Some 2%positive)] ->
                            live_obj l slot_store).
  { intros l Hl. apply list_elem_of_singleton in Hl as ->.
    exists 10%nat. reflexivity. }
  assert (Hdet : Forall is_Some [Some (Some 2%positive)])
    by (repeat constructor; eexists; reflexivity).
  pose proof (moved_vec_destroyed_once checked (MkVec 1 (Some 1%positive))
                1%positive [Some (Some 2%positive)] slot_store
                eq_refl eq_refl eq_refl eq_refl Hdet
                (NoDup_singleton 2%positive) Hlive)
    as (Hmove & Hsrc & _).
  split; [exact Hmove | exact Hsrc].
Defined.

Lemma assign_leaks_overwritten_witness :
  exists m',
    (r <- Vec.assign (MkVec 1 (Some 1%positive)) (MkVec 1 (Some 3%positive)) ;;
     Vec.destroy (T:=ptr_traits) (snd r) ;;
     Vec.destroy (T:=ptr_traits) (fst r)) two_vec_store = Done (tt, m') /\
    live_obj 2%positive m' /\ heap m' !! 4%positive = None.
Proof.
  destruct (assign_leaks_overwritten
              (MkVec 1 (Some 1%positive)) (MkVec 1 (Some 3%positive))
              1%positive 3%positive
              [Some (Some 2%positive)] [Some (Some 4%positive)] two_vec_store
              eq_refl eq_refl eq_refl eq_refl)
    as (m' & Hrun & _ & _ & Hb & Ha).
  - discriminate.
  - reflexivity.
  - repeat constructor. eexists. reflexivity.
  - apply NoDup_singleton.
  - intros l Hl. apply list_elem_of_singleton in Hl as ->.
    exists 20%nat. reflexivity.
  - intros l Hl. apply list_elem_of_singleton in Hl as ->. split.
    + exists 10%nat. reflexivity.
    + intros Hin. apply list_elem_of_singleton in Hin. discriminate Hin.
  - exists m'. split; [exact Hrun |]. split.
    + apply (Ha 2%positive). apply list_elem_of_singleton. reflexivity.
    + apply (Hb 4%positive). apply list_elem_of_singleton. reflexivity.
Defined.

Lemma make_takes_handles_witness :
  exists v init' m',
    Vec.make (T:=ptr_traits) checked 1 [Some 1%positive]
             (with_oracle [true] one_object) = Done ((v, init'), m') /\
    proxy_get (Vec.at_ v 0) m' = Done (Some 1%positive, m') /\
    init' !! 0%nat = Some nullptr.
Proof.
  destruct (make_takes_handles checked 1 [Some 1%positive]
              (with_oracle [true] one_object))
    as (v & init' & m' & Hrun & _ & _ & Hget & Hnull & _).
  - discriminate.
  - reflexivity.
  - reflexivity.
  - simpl. lia.
  - exists v, init', m'. split; [exact Hrun |]. split.
    + apply Hget; reflexivity.
    + apply Hnull. simpl. lia.
Defined.

Lemma make_of_args_witness :
  exists v m',
    Vec.make_of (T:=ptr_traits) checked [Some 1%positive]
                (with_oracle [true] one_object) = Done (v, m') /\
    Vec.size v = 1%N.
Proof.
  destruct (proj2 (make_of_args checked [Some 1%positive]
                     (with_oracle [true] one_object)))
    as (v & m' & Hrun & _ & Hsize & _).
  - discriminate.
  - reflexivity.
  - reflexivity.
  - exists v, m'. split; [exact Hrun | exact Hsize].
Defined.

Lemma make_moves_values_witness :
  exists m',
    Vec.make (T:=Val_traits) checked 2
             [Val.of_i32 7; Val.of_ref (Some 1%positive)]
             (with_oracle [true] one_object)
      = Done ((MkVec 2 (Some 2%positive),
               [Val.of_i32 7; Val.of_ref nullptr]), m') /\
    deleted m' = [].
Proof.
  destruct (make_moves_values checked 2
              [Val.of_i32 7; Val.of_ref (Some 1%positive)]
              (with_oracle [true] one_object))
    as (m' & Hrun & _ & Hdel & _).
  - discriminate.
  - reflexivity.
  - reflexivity.
  - simpl. lia.
  - exists m'. split; [exact Hrun | exact Hdel].
Defined.

Lemma operations_keep_wf_witness :
  Val_wf (snd (Val.move (Val.of_ref (Some 1%positive)))) = true /\
  kind_ (snd (Val.move (Val.of_ref (Some 1%positive)))) = ANYREF.
Proof.
  pose proof (operations_keep_wf (O:=nat) (V:=unit) checked
                (Val.of_ref (Some 1%positive)) (Val.of_i32 7) one_object
                eq_refl eq_refl) as ((_ & Hwf & _ & Hk) & _).
  split; [exact Hwf | exact Hk].
Defined.

Lemma copy_val_witness :
  Val.copy (Val.of_ref (Some 1%positive)) (with_oracle [true] (one_object (V:=unit)))
    = Done (Val.of_ref (Some 2%positive),
            Mem (<[2%positive := Obj 10%nat]> (heap one_object)) [] []).
Proof.
  pose proof (copy_val (Val.of_ref (Some 1%positive))
                (with_oracle [true] (one_object (V:=unit)))) as (_ & _ & Hobj).
  destruct (Hobj 1%positive 10%nat) as [Hgranted _].
  - split; reflexivity.
  - reflexivity.
  - destruct (Hgranted eq_refl) as [Hrun _]. exact Hrun.
Defined.

Lemma reset_idempotent_witness :
  Val.reset (Val.of_ref nullptr)
            (Mem (delete 1%positive (heap (one_object (V:=unit)))) [1%positive] [])
    = Done (Val.of_ref nullptr,
            Mem (delete 1%positive (heap one_object)) [1%positive] []).
Proof.
  exact (proj1 (reset_idempotent (Val.of_ref (Some 1%positive))
                  (one_object (V:=unit)) _ _ eq_refl)).
Defined.

Lemma assign_deletes_old_witness :
  Val.assign (Val.of_ref (Some 1%positive)) (Val.of_i32 7) (one_object (V:=unit))
    = Done ((Val.of_i32 7, Val.of_i32 7),
            Mem (delete 1%positive (heap one_object)) [1%positive] []).
Proof.
  assert (Hown : owns (Val.of_ref (Some 1%positive)) 1%positive)
    by (split; reflexivity).
  assert (Hlive : live_obj 1%positive (one_object (V:=unit)))
    by (exists 10%nat; reflexivity).
  exact (proj1 (assign_deletes_old (Val.of_ref (Some 1%positive)) (Val.of_i32 7)
                  1%positive one_object Hown Hlive)).
Defined.

Lemma release_adopt_round_trip_witness :
  Vec.adopt checked 1 (fst (Vec.release (MkVec 1 (Some 1%positive))))
    = Done (MkVec 1 (Some 1%positive)).
Proof.
  exact (proj1 (proj2 (release_adopt_round_trip (O:=nat) checked
                         (MkVec 1 (Some 1%positive)) slot_store eq_refl))).
Defined.

Lemma proxy_release_assign_witness :
  (p <- proxy_release (Vec.at_ (MkVec 1 (Some 1%positive)) 0) ;;
   proxy_assign (Vec.at_ (MkVec 1 (Some 1%positive)) 0) p) slot_store
    = Done (tt, slot_store).
Proof.
  assert (Hlive : forall l, Some 2%positive = Some l -> live_obj l slot_store).
  { intros l [= <-]. exists 10%nat. reflexivity. }
  exact (proj1 (proxy_release_assign (MkVec 1 (Some 1%positive)) 1%positive 0
                  [Some (Some 2%positive)] (Some 2%positive) nullptr slot_store
                  eq_refl eq_refl eq_refl Hlive)).
Defined.

Lemma copy_plain_independent_witness :
  exists m',
    Vec.copy (T:=plain_traits (fun a b : Z => ret (b, a)) None) checked
             (MkVec 2 (Some 1%positive)) bytes_store
      = Done (MkVec 2 (Some 2%positive), m') /\
    load (Some 2%positive) 1 m' = Done (105%Z, m').
Proof.
  assert (H2 : 2%N <> 0%N) by discriminate.
  destruct (copy_plain_independent checked (fun a b : Z => ret (b, a)) None 2
              1%positive [104%Z; 105%Z] bytes_store H2 eq_refl eq_refl eq_refl
              eq_refl) as (m' & Hrun & _ & _ & Hread & _).
  exists m'. split; [exact Hrun |].
  exact (proj1 (Hread 1%nat 105%Z eq_refl)).
Defined.

Lemma copy_deep_witness :
  exists m',
    Vec.copy (T:=ptr_traits) checked (MkVec 1 (Some 1%positive))
             (with_oracle [true; true] slot_store)
      = Done (MkVec 1 (Some 3%positive), m') /\
    proxy_get (Vec.at_ (MkVec 1 (Some 1%positive)) 0) m'
      = Done (Some 2%positive, m').
Proof.
  assert (H1 : 1%N <> 0%N) by discriminate.
  destruct (copy_deep checked 1 1%positive [Some (Some 2%positive)]
              (with_oracle [true; true] slot_store) H1 eq_refl eq_refl eq_refl)
    as (m' & Hrun & _ & _ & _ & _ & Hslots).
  - intros t Ht. destruct t as [|t]; [| simpl in Ht; lia].
    exists (Some 2%positive). split; [reflexivity |].
    intros l [= <-]. exists 10%nat. reflexivity.
  - intros k Hk. destruct k as [|[|k]]; [reflexivity | reflexivity |].
    simpl in Hk. lia.
  - exists m'. split; [exact Hrun |].
    exact (proj1 (Hslots 0%N 2%positive 10%nat eq_refl eq_refl eq_refl)).
Defined.

Lemma copy_then_destroy_witness :
  exists mf ls,
    (w <- Vec.copy (T:=ptr_traits) checked (MkVec 1 (Some 1%positive)) ;;
     Vec.destroy (T:=ptr_traits) w) (with_oracle [true; true] slot_store)
      = Done (tt, mf) /\
    heap mf !! 2%positive = Some (Obj 10%nat) /\
    deleted mf = reverse ls /\ length ls = 1%nat.
Proof.
  assert (H1 : 1%N <> 0%N) by discriminate.
  destruct (copy_then_destroy checked 1 1%positive [Some (Some 2%positive)]
              (with_oracle [true; true] slot_store) H1 eq_refl eq_refl eq_refl)
    as (mf & ls & Hrun & Hkeep & Hdel & Hlen & _).
  - intros t Ht. destruct t as [|t]; [| simpl in Ht; lia].
    exists 2%positive. split; [reflexivity |]. exists 10%nat. reflexivity.
  - intros k Hk. destruct k as [|[|k]]; [reflexivity | reflexivity |].
    simpl in Hk. lia.
  - exists mf, ls. split; [exact Hrun |]. split; [apply Hkeep; reflexivity |].
    split; [| exact Hlen]. rewrite Hdel. apply app_nil_r.
Defined.

Lemma proxy_unchecked_witness :
  proxy_get (Vec.at_ (MkVec 1 (Some 1%positive)) 1) slot_store = Undefined /\
  proxy_release (Vec.at_ (MkVec 1 (Some 1%positive)) 1) slot_store = Undefined.
Proof.
  pose proof (proxy_unchecked (MkVec 1 (Some 1%positive)) 1 nullptr slot_store)
    as H.
  destruct H as (Hget & _ & _ & Hrel & _).
  - right. exists 1%positive, [Some (Some 2%positive)].
    split; [reflexivity |]. split; [reflexivity |]. simpl. lia.
  - split; [exact Hget | exact Hrel].
Defined.

Lemma make_then_destroy_witness :
  exists m',
    (r <- Vec.make (T:=ptr_traits) checked 1 [Some 1%positive] ;;
     Vec.destroy (T:=ptr_traits) (fst r)) (with_oracle [true] one_object)
      = Done (tt, m') /\
    heap m' !! 1%positive = None /\ deleted m' = [1%positive].
Proof.
  destruct (make_then_destroy checked 1 [Some 1%positive]
              (with_oracle [true] one_object))
    as (m' & Hrun & _ & Hdel & Hgone).
  - discriminate.
  - reflexivity.
  - reflexivity.
  - simpl. lia.
  - apply NoDup_singleton.
  - intros l Hl. apply list_elem_of_singleton in Hl as ->.
    exists 10%nat. reflexivity.
  - exists m'. split; [exact Hrun |]. split; [| exact Hdel].
    apply (Hgone 1%positive). apply list_elem_of_singleton. reflexivity.
Defined.

Lemma move_from_moved_witness :
  Vec.move_from checked (MkVec 2 nullptr) = AssertFail /\
  Vec.move_from unchecked (MkVec 2 nullptr)
    = Done (MkVec 2 nullptr, MkVec 2 nullptr).
Proof.
  assert (H2 : 2%N <> 0%N) by discriminate.
  assert (Hc : 2%N <> SIZE_MAX checked) by discriminate.
  assert (Hu : 2%N <> SIZE_MAX unchecked) by discriminate.
  split.
  - exact (proj1 (move_from_moved (O:=nat) checked 2 (MkVec 0 nullptr)
                    (empty_store []) H2 Hc eq_refl)).
  - exact (proj1 (move_from_moved (O:=nat) unchecked 2 (MkVec 0 nullptr)
                    (empty_store []) H2 Hu eq_refl)).
Defined.

Lemma destroy_val_vector_witness :
  exists m',
    Vec.destroy (T:=Val_traits) (MkVec 2 (Some 1%positive)) val_block_store
      = Done (tt, m') /\
    deleted m' = [2%positive] /\
    heap m' !! 1%positive = None /\ heap m' !! 2%positive = None.
Proof.
  destruct (destroy_val_vector (MkVec 2 (Some 1%positive)) 1%positive
              [Val.of_ref (Some 2%positive); Val.of_i32 7] val_block_store
              eq_refl eq_refl)
    as (m' & Hrun & Hdel & _ & Hblock & Hown & _).
  - repeat constructor.
  - apply NoDup_singleton.
  - intros l Hl. apply list_elem_of_singleton in Hl as ->.
    exists 10%nat. reflexivity.
  - exists m'. split; [exact Hrun |]. split; [exact Hdel |].
    split; [exact Hblock |].
    apply (Hown 2%positive). apply list_elem_of_singleton. reflexivity.
Defined.

Lemma assign_val_vector_witness :
  exists m',
    Vec.assign (T:=Val_traits) (MkVec 2 (Some 1%positive))
               (MkVec 1 (Some 3%positive)) two_val_block_store
      = Done ((MkVec 1 (Some 3%positive), MkVec 1 nullptr), m') /\
    deleted m' = [2%positive] /\
    heap m' !! 2%positive = None /\
    heap m' !! 4%positive = Some (Obj 20%nat).
Proof.
  destruct (assign_val_vector (MkVec 2 (Some 1%positive))
              (MkVec 1 (Some 3%positive)) 1%positive
              [Val.of_ref (Some 2%positive); Val.of_i32 7] two_val_block_store
              eq_refl eq_refl)
    as (m' & Hrun & Hdel & _ & Hown & Hrest).
  - repeat constructor.
  - apply NoDup_singleton.
  - intros l Hl. apply list_elem_of_singleton in Hl as ->.
    exists 10%nat. reflexivity.
  - exists m'. split; [exact Hrun |]. split; [exact Hdel |]. split.
    + apply (Hown 2%positive). apply list_elem_of_singleton. reflexivity.
    + assert (Hnot : 4%positive ∉ val_owned [Val.of_ref (Some 2%positive);
                                             Val.of_i32 7]).
      { intros Hin. apply list_elem_of_singleton in Hin. discriminate Hin. }
      assert (Hne : 4%positive <> 1%positive) by discriminate.
      exact (eq_trans (proj1 (Hrest 4%positive Hne Hnot)) eq_refl).
Defined.
